(** * TraceCollector (pxr/base/lib/trace/collector.h)

    A shallow embedding of the trace event collector: the enable gate, the
    per-thread producer slots with their [_writing] handshake flag, the
    payload dispatch of [StoreData], the variadic data batches and the
    harvest.  Stateful code is written in a small state-and-failure monad
    over the collector, the heap of event lists and a ghost log of the
    atomic accesses and list mutations each operation performs. *)

From Stdlib Require Import ZArith List Bool String Lia.
From Stdlib.Strings Require Import Byte.
From stdpp Require Import base option list.

Open Scope Z_scope.

(** ** Data model *)

(** [TraceEvent::TimeStamp]: a tick count. *)
Definition TimeStamp := Z.
(** [TraceCategoryId]; [TraceCategory::Default] is 0. *)
Definition TraceCategoryId := Z.
Definition TraceCategory_Default : TraceCategoryId := 0.
(** [TraceThreadId]. *)
Abbreviation TraceThreadId := nat (only parsing).
(** [TraceKey]: the identity of a compile-time descriptor. *)
Definition TraceKey := Z.
(** [TraceDynamicKey]: a heap-owned string. *)
Definition Key := list byte.
(** [double], by its 64-bit pattern. *)
Definition double := Z.

(** Address of an [EventList] object, an index into the heap. *)
Abbreviation addr := nat (only parsing).
(** Pointer returned by the arena of an event list. *)
Abbreviation ArenaPtr := nat (only parsing).

Inductive EventType :=
| Begin | End | Timespan | CounterDelta | CounterValue | Data | ScopeData
| Marker.

Definition EventType_eqb (a b : EventType) : bool :=
  match a, b with
  | Begin, Begin | End, End | Timespan, Timespan
  | CounterDelta, CounterDelta | CounterValue, CounterValue
  | Data, Data | ScopeData, ScopeData | Marker, Marker => true
  | _, _ => false
  end.

Definition byte_eqb (a b : byte) : bool := Byte.eqb a b.

Fixpoint bytes_eqb (a b : list byte) : bool :=
  match a, b with
  | [], [] => true
  | x :: a', y :: b' => byte_eqb x y && bytes_eqb a' b'
  | _, _ => false
  end.

(** The key of an event: a static key, or a dynamic key (identified here by
    its string, equal strings giving equal keys). *)
Inductive EventKey :=
| StaticKey (k : TraceKey)
| DynamicKey (k : Key).

Definition EventKey_eqb (a b : EventKey) : bool :=
  match a, b with
  | StaticKey x, StaticKey y => Z.eqb x y
  | DynamicKey x, DynamicKey y => bytes_eqb x y
  | _, _ => false
  end.

(** Modelled from the spec: the event's payload word (event.h is not part
    of the sources): nothing, a value held inline by its object
    representation, a double, the start time of a timespan, or a pointer
    into the arena of the list that holds the event. *)
Inductive Payload :=
| PNone
| PInline (repr : list byte)
| PDouble (x : double)
| PStart (t : TimeStamp)
| PArena (p : ArenaPtr).

(** Modelled from the spec: [TraceEvent] (event.h is not part of the
    sources): kind, key, category, timestamp, payload. *)
Record TraceEvent := mkEvent {
  ev_type : EventType;
  ev_key : EventKey;
  ev_category : TraceCategoryId;
  ev_time : TimeStamp;
  ev_payload : Payload
}.

(** Modelled from the spec: [TraceCollection::EventList] (eventList.h is not
    part of the sources): an append-only sequence of events and an arena of
    byte blocks whose pointers stay valid for the life of the list. *)
Record EventList := mkList {
  events : list TraceEvent;
  arena : list (list byte)
}.

(** Modelled from the spec: a list is created empty. *)
Definition EventList_new : EventList := mkList [] [].

(** Modelled from the spec: has the list no event? *)
Definition EventList_IsEmpty (l : EventList) : bool :=
  match events l with [] => true | _ => false end.

(** Modelled from the spec: append one event. *)
Definition EventList_EmplaceBack (e : TraceEvent) (l : EventList) : EventList :=
  mkList (events l ++ [e]) (arena l).

(** Modelled from the spec: replace the last event (the scope fusion rewrites
    a [Begin] into a [Timespan]). *)
Definition EventList_ReplaceBack (e : TraceEvent) (l : EventList) : EventList :=
  mkList (removelast (events l) ++ [e]) (arena l).

(** Modelled from the spec: copy a block into the arena; the pointer is the
    block's index, and no earlier block moves. *)
Definition EventList_StoreBlock (b : list byte) (l : EventList)
  : ArenaPtr * EventList :=
  (length (arena l), mkList (events l) (arena l ++ [b])).

(** The bytes of a C string: those before the first NUL of the buffer. *)
Fixpoint c_str_read (buf : list byte) : list byte :=
  match buf with
  | [] => []
  | c :: rest => if byte_eqb c x00 then [] else c :: c_str_read rest
  end.

(** [std::string::c_str]: the buffer is the contents followed by NUL. *)
Definition c_str (s : list byte) : list byte := s ++ [x00].

(** Modelled from the spec: read back the C string an arena pointer
    designates. *)
Definition EventList_ReadString (l : EventList) (p : ArenaPtr)
  : option (list byte) :=
  c_str_read <$> (arena l !! p).

(** ** Per-thread data and collector *)

Record _PerThreadData := mkThreadData {
  _writing : bool;               (* std::atomic<bool> _writing *)
  _events : addr;                (* std::atomic<EventList*> _events *)
  _threadIndex : TraceThreadId
}.

Record TraceCollector := mkCollector {
  _isEnabled : Z;                             (* static std::atomic<int> *)
  _allPerThreadData : list _PerThreadData;    (* one slot per thread *)
  _label : string
}.

(** A harvested collection: the sealed list of each thread that had
    events. *)
Definition TraceCollection := list (TraceThreadId * EventList).

Inductive memory_order := mo_relaxed | mo_acquire | mo_release | mo_acq_rel.

(** Ghost log entries: atomic accesses and mutations of event lists. *)
Inductive Action :=
| LoadEnabled (mo : memory_order) (v : Z)
| StoreWriting (td : nat) (b : bool) (mo : memory_order)
| LoadWriting (td : nat) (mo : memory_order) (b : bool)
| LoadEvents (td : nat) (mo : memory_order) (p : addr)
| SwapEvents (td : nat) (mo : memory_order) (old new : addr)
| ListEmplaceBack (p : addr) (e : TraceEvent)
| ListReplaceBack (p : addr) (e : TraceEvent)
| ArenaStore (p : addr) (b : list byte).

Record State := mkState {
  collector : TraceCollector;
  heap : list EventList;          (* the EventList objects, by address *)
  clock : TimeStamp;              (* the tick counter *)
  notices : list TraceCollection; (* TraceCollectionAvailable notices sent *)
  trace : list Action             (* ghost log *)
}.

Definition set_collector (c : TraceCollector) (s : State) : State :=
  mkState c (heap s) (clock s) (notices s) (trace s).
Definition set_heap (h : list EventList) (s : State) : State :=
  mkState (collector s) h (clock s) (notices s) (trace s).
Definition set_clock (t : TimeStamp) (s : State) : State :=
  mkState (collector s) (heap s) t (notices s) (trace s).
Definition add_notice (c : TraceCollection) (s : State) : State :=
  mkState (collector s) (heap s) (clock s) (notices s ++ [c]) (trace s).
Definition log (a : Action) (s : State) : State :=
  mkState (collector s) (heap s) (clock s) (notices s) (trace s ++ [a]).

Definition set_slots (l : list _PerThreadData) (c : TraceCollector)
  : TraceCollector :=
  mkCollector (_isEnabled c) l (_label c).

(** ** The monad: state, and failure for a null or dangling pointer or a
    wait that no other thread can end *)

Definition M (A : Type) : Type := State -> option (A * State).

Definition ret {A} (a : A) : M A := fun s => Some (a, s).
Definition bind {A B} (m : M A) (k : A -> M B) : M B :=
  fun s => match m s with
           | Some (a, s') => k a s'
           | None => None
           end.
Definition fail {A} : M A := fun _ => None.
Definition get : M State := fun s => Some (s, s).
Definition modify (f : State -> State) : M unit := fun s => Some (tt, f s).

Notation "x <- c1 ;; c2" := (bind c1 (fun x => c2))
  (at level 100, c1 at next level, right associativity).
Notation "c1 ;; c2" := (bind c1 (fun _ => c2))
  (at level 100, right associativity).

Definition lift_option {A} (o : option A) : M A :=
  match o with Some a => ret a | None => fail end.

(** ** Primitive accesses *)

Definition get_slot (td : nat) : M _PerThreadData :=
  s <- get ;; lift_option (_allPerThreadData (collector s) !! td).

Definition put_slot (td : nat) (d : _PerThreadData) : M unit :=
  modify (fun s =>
    set_collector
      (set_slots (<[td := d]> (_allPerThreadData (collector s))) (collector s))
      s).

Definition deref (p : addr) : M EventList :=
  s <- get ;; lift_option (heap s !! p).

Definition assign (p : addr) (l : EventList) : M unit :=
  modify (fun s => set_heap (<[p := l]> (heap s)) s).

(** [_isEnabled.load(mo)] *)
Definition load_isEnabled (mo : memory_order) : M Z :=
  s <- get ;;
  modify (log (LoadEnabled mo (_isEnabled (collector s)))) ;;
  ret (_isEnabled (collector s)).

(** [_writing.store(b, mo)] on the slot [td]. *)
Definition store_writing (td : nat) (b : bool) (mo : memory_order) : M unit :=
  d <- get_slot td ;;
  put_slot td (mkThreadData b (_events d) (_threadIndex d)) ;;
  modify (log (StoreWriting td b mo)).

(** [_writing.load(mo)] on the slot [td]. *)
Definition load_writing (td : nat) (mo : memory_order) : M bool :=
  d <- get_slot td ;;
  modify (log (LoadWriting td mo (_writing d))) ;;
  ret (_writing d).

(** [_events.load(mo)] on the slot [td]. *)
Definition load_events (td : nat) (mo : memory_order) : M addr :=
  d <- get_slot td ;;
  modify (log (LoadEvents td mo (_events d))) ;;
  ret (_events d).

(** [_events.exchange(fresh, mo)] on the slot [td]. *)
Definition exchange_events (td : nat) (fresh : addr) (mo : memory_order)
  : M addr :=
  d <- get_slot td ;;
  put_slot td (mkThreadData (_writing d) fresh (_threadIndex d)) ;;
  modify (log (SwapEvents td mo (_events d) fresh)) ;;
  ret (_events d).

(** [new EventList]: the next free address. *)
Definition new_EventList : M addr :=
  s <- get ;;
  modify (set_heap (heap s ++ [EventList_new])) ;;
  ret (length (heap s)).

(** Modelled from the spec: the clock source is an injected dependency; a
    tick counter that advances at each reading. *)
Definition ArchGetTickTime : M TimeStamp :=
  s <- get ;;
  modify (set_clock (clock s + 1)) ;;
  ret (clock s).

(** Append the constructed event [e] to the list at [p]. *)
Definition push_back (p : addr) (e : TraceEvent) : M unit :=
  l <- deref p ;;
  assign p (EventList_EmplaceBack e l) ;;
  modify (log (ListEmplaceBack p e)).

(** Overwrite the last event of the list at [p]. *)
Definition replace_back (p : addr) (e : TraceEvent) : M unit :=
  l <- deref p ;;
  assign p (EventList_ReplaceBack e l) ;;
  modify (log (ListReplaceBack p e)).

(** Copy the block [b] into the arena of the list at [p]. *)
Definition store_block (p : addr) (b : list byte) : M ArenaPtr :=
  l <- deref p ;;
  assign p (snd (EventList_StoreBlock b l)) ;;
  modify (log (ArenaStore p b)) ;;
  ret (fst (EventList_StoreBlock b l)).

(** ** Event construction *)

(** The argument packs [EmplaceBack] forwards to the constructors of
    [TraceEvent]. *)
Inductive CtorArgs :=
| BeginArgs (key : EventKey) (cat : TraceCategoryId)
| EndArgs (key : EventKey) (cat : TraceCategoryId)
| TimespanArgs (key : EventKey) (start : TimeStamp) (cat : TraceCategoryId)
| CounterDeltaArgs (key : EventKey) (x : double) (cat : TraceCategoryId)
| CounterValueArgs (key : EventKey) (x : double) (cat : TraceCategoryId)
| DataArgs (key : EventKey) (data : Payload) (cat : TraceCategoryId).

(** Modelled from the spec: the constructors of [TraceEvent] (event.h is not
    part of the sources).  Each stamps the event with the current time; a
    timespan keeps its start in the payload and ends now. *)
Definition event_of (a : CtorArgs) (now : TimeStamp) : TraceEvent :=
  match a with
  | BeginArgs key cat => mkEvent Begin key cat now PNone
  | EndArgs key cat => mkEvent End key cat now PNone
  | TimespanArgs key start cat => mkEvent Timespan key cat now (PStart start)
  | CounterDeltaArgs key x cat => mkEvent CounterDelta key cat now (PDouble x)
  | CounterValueArgs key x cat => mkEvent CounterValue key cat now (PDouble x)
  | DataArgs key data cat => mkEvent Data key cat now data
  end.

(** Modelled from the spec: construct an event, reading the clock. *)
Definition construct (a : CtorArgs) : M TraceEvent :=
  now <- ArchGetTickTime ;;
  ret (event_of a now).

(** [events->EmplaceBack(args...)] on the list at [p]. *)
Definition EmplaceBack (p : addr) (a : CtorArgs) : M unit :=
  e <- construct a ;; push_back p e.

(** What [StoreLargeData] hands to [EventList::StoreData]: a C string, or an
    object larger than a pointer. *)
Inductive LargeData :=
| CStr (buf : list byte)
| Blob (repr : list byte).

(** Modelled from the spec: [EventList::StoreData] (eventList.h is not part
    of the sources) copies the bytes into the arena.  Of a [const char*] it
    can only copy the C string, up to and with the terminating NUL. *)
Definition block_of (d : LargeData) : list byte :=
  match d with
  | CStr buf => c_str_read buf ++ [x00]
  | Blob repr => repr
  end.

(** Modelled from the spec: [events->StoreData(data)] on the list at [p]. *)
Definition EventList_StoreData (p : addr) (d : LargeData) : M ArenaPtr :=
  store_block p (block_of d).

(** ** class _PerThreadData *)

Module PerThreadData.

(** [AtomicRef lock(_writing)] around [body]: the constructor stores true,
    the destructor, at the end of the scope, stores false. *)
Definition AtomicRef {A} (td : nat) (body : M A) : M A :=
  store_writing td true mo_release ;;
  r <- body ;;
  store_writing td false mo_release ;;
  ret r.

Definition _BeginScope (td : nat) (key : TraceKey) (cat : TraceCategoryId)
  : M unit :=
  ev <- load_events td mo_acquire ;;
  EmplaceBack ev (BeginArgs (StaticKey key) cat).

Definition BeginScope (td : nat) (key : TraceKey) (cat : TraceCategoryId)
  : M unit :=
  AtomicRef td (_BeginScope td key cat).

(** Is [prev] the [Begin] event of the scope [key], [cat]? *)
Definition matching_Begin (prev : TraceEvent) (key : EventKey)
           (cat : TraceCategoryId) : bool :=
  EventType_eqb (ev_type prev) Begin
  && EventKey_eqb (ev_key prev) key
  && Z.eqb (ev_category prev) cat.

(** Modelled from the spec: [_EndScope] is defined in collector.cpp, which
    is not part of the sources.  It peeks the preceding event of the list
    and, when that is the matching [Begin] with the same key and category,
    rewrites it into a single [Timespan]; otherwise it appends an [End]. *)
Definition _EndScope (td : nat) (key : TraceKey) (cat : TraceCategoryId)
  : M unit :=
  ev <- load_events td mo_acquire ;;
  l <- deref ev ;;
  match last (events l) with
  | Some prev =>
      if matching_Begin prev (StaticKey key) cat
      then e <- construct (TimespanArgs (StaticKey key) (ev_time prev) cat) ;;
           replace_back ev e
      else EmplaceBack ev (EndArgs (StaticKey key) cat)
  | None => EmplaceBack ev (EndArgs (StaticKey key) cat)
  end.

Definition EndScope (td : nat) (key : TraceKey) (cat : TraceCategoryId)
  : M unit :=
  AtomicRef td (_EndScope td key cat).

(** [StoreData<T>]: the value goes into the event itself. *)
Definition StoreData (td : nat) (key : TraceKey) (data : list byte)
           (cat : TraceCategoryId) : M unit :=
  AtomicRef td (
    ev <- load_events td mo_acquire ;;
    EmplaceBack ev (DataArgs (StaticKey key) (PInline data) cat)).

Definition StoreLargeData (td : nat) (key : TraceKey) (data : LargeData)
           (cat : TraceCategoryId) : M unit :=
  AtomicRef td (
    ev <- load_events td mo_acquire ;;
    cached <- EventList_StoreData ev data ;;
    EmplaceBack ev (DataArgs (StaticKey key) (PArena cached) cat)).

Definition EmplaceEvent (td : nat) (args : CtorArgs) : M unit :=
  AtomicRef td (
    ev <- load_events td mo_acquire ;;
    EmplaceBack ev args).

(** Modelled from the spec: [BeginEvent] and [EndEvent] of the slot are
    defined in collector.cpp, which is not part of the sources: stamp the
    current time, append, and return the timestamp. *)
Definition BeginEvent (td : nat) (key : Key) (cat : TraceCategoryId)
  : M TimeStamp :=
  AtomicRef td (
    ev <- load_events td mo_acquire ;;
    e <- construct (BeginArgs (DynamicKey key) cat) ;;
    push_back ev e ;;
    ret (ev_time e)).

(** Modelled from the spec: as [BeginEvent], with an [End] event. *)
Definition EndEvent (td : nat) (key : Key) (cat : TraceCategoryId)
  : M TimeStamp :=
  AtomicRef td (
    ev <- load_events td mo_acquire ;;
    e <- construct (EndArgs (DynamicKey key) cat) ;;
    push_back ev e ;;
    ret (ev_time e)).



(** Modelled from the spec: [GetCollectionData] is defined in
    collector.cpp, which is not part of the sources.  It swaps a fresh
    list in, waits until the owner has left its append, and returns the
    old list.  With no other thread to clear the flag, a wait on a set
    flag never ends. *)
Definition GetCollectionData (td : nat) : M addr :=
  fresh <- new_EventList ;;
  old <- exchange_events td fresh mo_acq_rel ;;
  w <- load_writing td mo_acquire ;;
  if (w : bool) then fail else ret old.

(** Modelled from the spec: [CounterDelta] and [CounterValue] of the slot,
    for a dynamic key, are defined in collector.cpp, which is not part of
    the sources; they follow the same append protocol. *)
Definition CounterDelta (td : nat) (key : Key) (value : double)
           (cat : TraceCategoryId) : M unit :=
  AtomicRef td (
    ev <- load_events td mo_acquire ;;
    EmplaceBack ev (CounterDeltaArgs (DynamicKey key) value cat)).

(** Modelled from the spec: as [CounterDelta], with a [CounterValue]
    event. *)
Definition CounterValue (td : nat) (key : Key) (value : double)
           (cat : TraceCategoryId) : M unit :=
  AtomicRef td (
    ev <- load_events td mo_acquire ;;
    EmplaceBack ev (CounterValueArgs (DynamicKey key) value cat)).

End PerThreadData.

(** ** Compile-time outcomes *)

(** A call either compiles to a computation or is rejected by the compiler
    (a failed [static_assert], no viable overload). *)
Inductive Compiled (A : Type) :=
| Accepted (a : A)
| Rejected (msg : string).
Arguments Accepted {A} a.
Arguments Rejected {A} msg.

Definition pairs_message : string := "Data arguments must come in pairs".
Definition no_overload_message : string := "no matching function for call".

(** The value handed to [StoreData]: an object of a type other than a
    pointer to characters, an array of characters and [std::string], by its
    object representation (its [sizeof] is the length) and whether the type
    is a pointer; a C string by the buffer it points to; a [std::string] by
    its contents; or an array of characters, [char[N]], such as a string
    literal, by its [N] bytes. *)
Inductive DataValue :=
| Object (is_pointer : bool) (repr : list byte)
| CString (buf : list byte)
| StdString (s : list byte)
| CharArray (arr : list byte).

(** One argument of a variadic pack. *)
Inductive PackArg :=
| PKey (key : TraceKey)
| PValue (v : DataValue).

(** ** class TraceCollector *)

Section Collector.

(** The calling thread, and [sizeof(uintptr_t)] of the platform. *)
Variable self : TraceThreadId.
Variable sizeof_uintptr_t : nat.

Definition IsEnabled : M bool :=
  v <- load_isEnabled mo_acquire ;;
  ret (Z.eqb v 1).

(** Modelled from the spec: [_GetThreadData] is defined in collector.cpp,
    which is not part of the sources.  It returns the slot of the calling
    thread, or creates one, with an empty list, and registers it when none
    exists. *)
Definition _GetThreadData : M nat :=
  s <- get ;;
  match list_find (fun d => _threadIndex d = self)
                  (_allPerThreadData (collector s)) with
  | Some (td, _) => ret td
  | None =>
      p <- new_EventList ;;
      modify (fun s' =>
        set_collector
          (set_slots (_allPerThreadData (collector s')
                      ++ [mkThreadData false p self]) (collector s'))
          s') ;;
      ret (length (_allPerThreadData (collector s)))
  end.

Definition _BeginScope (key : TraceKey) (cat : TraceCategoryId) : M unit :=
  threadData <- _GetThreadData ;;
  PerThreadData.BeginScope threadData key cat.

(** Modelled from the spec: [_EndScope] of the collector is defined in
    collector.cpp, which is not part of the sources; as [_BeginScope]. *)
Definition _EndScope (key : TraceKey) (cat : TraceCategoryId) : M unit :=
  threadData <- _GetThreadData ;;
  PerThreadData.EndScope threadData key cat.

Definition BeginScope (key : TraceKey) (cat : TraceCategoryId) : M unit :=
  en <- IsEnabled ;;
  if negb en then ret tt
  else _BeginScope key cat.

Definition EndScope (key : TraceKey) (cat : TraceCategoryId) : M unit :=
  en <- IsEnabled ;;
  if negb en then ret tt
  else _EndScope key cat.

Definition Scope (key : TraceKey) (start : TimeStamp) (cat : TraceCategoryId)
  : M unit :=
  en <- IsEnabled ;;
  if negb en then ret tt
  else
    threadData <- _GetThreadData ;;
    PerThreadData.EmplaceEvent threadData
      (TimespanArgs (StaticKey key) start cat).

(** Overload resolution of [_StoreData] on the type of the value: the two
    non-template overloads take the strings, and the one for [const char*]
    also an array of [char], whatever its size: [StoreData] and
    [_StoreDataRec] pass the value on as [const T&], so the array is of
    const characters and converts to the pointer by an exact match, and a
    non-template wins over the templates on a tie.  Of the templates, the
    first takes another non-pointer type no larger than a pointer and the
    second a larger one; another pointer has no viable overload. *)
Definition _StoreData (value : DataValue)
  : Compiled (nat -> TraceKey -> TraceCategoryId -> M unit) :=
  match value with
  | StdString s =>
      Accepted (fun threadData key cat =>
        PerThreadData.StoreLargeData threadData key (CStr (c_str s)) cat)
  | CString buf =>
      Accepted (fun threadData key cat =>
        PerThreadData.StoreLargeData threadData key (CStr buf) cat)
  | CharArray arr =>
      Accepted (fun threadData key cat =>
        PerThreadData.StoreLargeData threadData key (CStr arr) cat)
  | Object false repr =>
      if (length repr <=? sizeof_uintptr_t)%nat
      then Accepted (fun threadData key cat =>
             PerThreadData.StoreData threadData key repr cat)
      else Accepted (fun threadData key cat =>
             PerThreadData.StoreLargeData threadData key (Blob repr) cat)
  | Object true _ => Rejected no_overload_message
  end.

Definition StoreData (key : TraceKey) (value : DataValue)
           (cat : TraceCategoryId) : Compiled (M unit) :=
  match _StoreData value with
  | Accepted store =>
      Accepted (
        en <- IsEnabled ;;
        if (en : bool) then
          threadData <- _GetThreadData ;;
          store threadData key cat
        else ret tt)
  | Rejected msg => Rejected msg
  end.

(** The variadic [_StoreDataRec]: the base case takes the empty pack, the
    recursive case a key, a value and the rest. *)
Fixpoint _StoreDataRec (args : list PackArg)
  : Compiled (nat -> TraceCategoryId -> M unit) :=
  match args with
  | [] => Accepted (fun threadData cat => ret tt)
  | PKey key :: PValue value :: rest =>
      match _StoreData value, _StoreDataRec rest with
      | Accepted store, Accepted more =>
          Accepted (fun threadData cat =>
            store threadData key cat ;;
            more threadData cat)
      | Rejected msg, _ => Rejected msg
      | _, Rejected msg => Rejected msg
      end
  | _ => Rejected no_overload_message
  end.

(** [static_assert(sizeof...(Args) % 2 == 0, ...)] *)
Definition static_assert_pairs {A} (args : list PackArg) (body : Compiled A)
  : Compiled A :=
  if (length args mod 2 =? 0)%nat then body else Rejected pairs_message.

(** [BeginScope(key, cat, args...)], the variadic overload with a
    category. *)
Definition BeginScope_args (key : TraceKey) (cat : TraceCategoryId)
           (args : list PackArg) : Compiled (M unit) :=
  static_assert_pairs args
    match _StoreDataRec args with
    | Accepted store =>
        Accepted (
          en <- IsEnabled ;;
          if negb en then ret tt
          else
            threadData <- _GetThreadData ;;
            PerThreadData.BeginScope threadData key cat ;;
            store threadData cat)
    | Rejected msg => Rejected msg
    end.

(** [BeginScope(key, args...)]: the overload without a category forwards
    with the default one. *)
Definition BeginScope_args_default (key : TraceKey) (args : list PackArg)
  : Compiled (M unit) :=
  static_assert_pairs args
    (BeginScope_args key TraceCategory_Default args).

(** [ScopeArgs(cat, args...)] *)
Definition ScopeArgs (cat : TraceCategoryId) (args : list PackArg)
  : Compiled (M unit) :=
  static_assert_pairs args
    match _StoreDataRec args with
    | Accepted store =>
        Accepted (
          en <- IsEnabled ;;
          if negb en then ret tt
          else
            threadData <- _GetThreadData ;;
            store threadData cat)
    | Rejected msg => Rejected msg
    end.

(** [ScopeArgs(args...)]: forwards with the default category. *)
Definition ScopeArgs_default (args : list PackArg) : Compiled (M unit) :=
  static_assert_pairs args (ScopeArgs TraceCategory_Default args).

Definition RecordCounterDelta (key : TraceKey) (delta : double)
           (cat : TraceCategoryId) : M unit :=
  en <- IsEnabled ;;
  if (en : bool) then
    threadData <- _GetThreadData ;;
    PerThreadData.EmplaceEvent threadData
      (CounterDeltaArgs (StaticKey key) delta cat)
  else ret tt.

Definition RecordCounterValue (key : TraceKey) (value : double)
           (cat : TraceCategoryId) : M unit :=
  en <- IsEnabled ;;
  if (en : bool) then
    threadData <- _GetThreadData ;;
    PerThreadData.EmplaceEvent threadData
      (CounterValueArgs (StaticKey key) value cat)
  else ret tt.

(** The overloads of the counters for a dynamic key. *)
Definition RecordCounterDelta_Key (key : Key) (delta : double)
           (cat : TraceCategoryId) : M unit :=
  en <- IsEnabled ;;
  if (en : bool) then
    threadData <- _GetThreadData ;;
    PerThreadData.CounterDelta threadData key delta cat
  else ret tt.

Definition RecordCounterValue_Key (key : Key) (value : double)
           (cat : TraceCategoryId) : M unit :=
  en <- IsEnabled ;;
  if (en : bool) then
    threadData <- _GetThreadData ;;
    PerThreadData.CounterValue threadData key value cat
  else ret tt.

(** Modelled from the spec: [BeginEvent] and [EndEvent] are defined in
    collector.cpp, which is not part of the sources.  They return the
    timestamp of the event, or 0 when the collector is disabled. *)
Definition BeginEvent (key : Key) (cat : TraceCategoryId) : M TimeStamp :=
  en <- IsEnabled ;;
  if negb en then ret 0
  else
    threadData <- _GetThreadData ;;
    PerThreadData.BeginEvent threadData key cat.

(** Modelled from the spec: as [BeginEvent]. *)
Definition EndEvent (key : Key) (cat : TraceCategoryId) : M TimeStamp :=
  en <- IsEnabled ;;
  if negb en then ret 0
  else
    threadData <- _GetThreadData ;;
    PerThreadData.EndEvent threadData key cat.

End Collector.

(** Modelled from the spec: [CreateCollection] is defined in collector.cpp,
    which is not part of the sources; the header declares it [void] and
    documents that it issues a TraceCollectionAvailable notice.  For each
    slot of the registry it takes the slot's list, and includes it, with the
    thread id, when it is not empty; the collection goes out in the
    notice. *)
Fixpoint harvest (tds : list nat) : M TraceCollection :=
  match tds with
  | [] => ret []
  | td :: rest =>
      old <- PerThreadData.GetCollectionData td ;;
      l <- deref old ;;
      d <- get_slot td ;;
      more <- harvest rest ;;
      ret (if EventList_IsEmpty l then more
           else (_threadIndex d, l) :: more)
  end.

(** Modelled from the spec: [CreateCollection], declared [void] in the
    header, harvests every slot of the registry and sends the notice. *)
Definition CreateCollection : M unit :=
  s <- get ;;
  collection <- harvest (seq 0 (length (_allPerThreadData (collector s)))) ;;
  modify (add_notice collection).

(** ** Observations on states *)

(** The slots of the registry. *)
Definition slots (s : State) : list _PerThreadData :=
  _allPerThreadData (collector s).

(** The slot of thread [t] in the registry, with its index. *)
Definition thread_slot (t : TraceThreadId) (s : State)
  : option (nat * _PerThreadData) :=
  list_find (fun d => _threadIndex d = t) (slots s).

(** The current list of thread [t] (an empty list when [t] has no slot). *)
Definition thread_list (t : TraceThreadId) (s : State) : EventList :=
  match thread_slot t s with
  | Some (_, d) =>
      match heap s !! _events d with
      | Some l => l
      | None => EventList_new
      end
  | None => EventList_new
  end.

(** The events pending in the current list of thread [t]. *)
Definition thread_events (t : TraceThreadId) (s : State) : list TraceEvent :=
  events (thread_list t s).

(** The arena blocks of the current list of thread [t]. *)
Definition thread_arena (t : TraceThreadId) (s : State) : list (list byte) :=
  arena (thread_list t s).

(** From [s] to [s'] the thread [t] got one [Data] event that holds [repr]
    itself; its arena did not change. *)
Definition stored_inline (t : TraceThreadId) (key : TraceKey)
           (cat : TraceCategoryId) (repr : list byte) (s s' : State) : Prop :=
  thread_events t s'
  = thread_events t s
    ++ [mkEvent Data (StaticKey key) cat (clock s) (PInline repr)]
  /\ thread_arena t s' = thread_arena t s.

(** From [s] to [s'] the thread [t] got the block [block] in its arena and
    then one [Data] event whose payload is the pointer to that block. *)
Definition stored_in_arena (t : TraceThreadId) (key : TraceKey)
           (cat : TraceCategoryId) (block : list byte) (s s' : State) : Prop :=
  exists ptr,
    thread_events t s'
    = thread_events t s
      ++ [mkEvent Data (StaticKey key) cat (clock s) (PArena ptr)]
    /\ thread_arena t s' = thread_arena t s ++ [block]
    /\ thread_arena t s' !! ptr = Some block
    /\ exists td p e,
        trace s'
        = trace s
          ++ [LoadEnabled mo_acquire 1;
              StoreWriting td true mo_release;
              LoadEvents td mo_acquire p;
              ArenaStore p block;
              ListEmplaceBack p e;
              StoreWriting td false mo_release].

(** Every slot points to an allocated list. *)
Definition wf (s : State) : Prop :=
  forall td d, slots s !! td = Some d -> (_events d < length (heap s))%nat.

(** No thread is inside an append. *)
Definition quiescent (s : State) : Prop :=
  forall td d, slots s !! td = Some d -> _writing d = false.

(** The invariant of the states between two operations. *)
Definition invariant (s : State) : Prop := wf s /\ quiescent s.

(** [m] returns from every state that satisfies the invariant and has the
    slot [td], and keeps the invariant and the slots in place. *)
Definition total_on {A} (td : nat) (m : M A) : Prop :=
  forall s, invariant s -> (td < length (slots s))%nat ->
    exists r s', m s = Some (r, s') /\ invariant s'
                 /\ length (slots s') = length (slots s).

(** [m] returns from every state that satisfies the invariant, and keeps
    it. *)
Definition returns_with_invariant {A} (m : M A) : Prop :=
  forall s, invariant s -> exists r s', m s = Some (r, s') /\ invariant s'.

(** [s'] differs from [s] by one acquire load of the gate, and nothing
    else: no slot, no list, no arena block was created or changed. *)
Definition only_gate_read (s s' : State) : Prop :=
  collector s' = collector s
  /\ heap s' = heap s
  /\ clock s' = clock s
  /\ notices s' = notices s
  /\ trace s' = trace s ++ [LoadEnabled mo_acquire (_isEnabled (collector s))].

(** The list mutations of one append to the list at [p]: the event written
    at the back, after the arena block of a large payload if any. *)
Definition append_body (p : addr) (body : list Action) : bool :=
  match body with
  | [ListEmplaceBack q _] | [ListReplaceBack q _] => Nat.eqb q p
  | [ArenaStore q _; ListEmplaceBack q' _] => Nat.eqb q p && Nat.eqb q' p
  | _ => false
  end.



(** The [sizeof] of the type of a value and whether the type is a pointer,
    where the value tells: the size of a [std::string] is the library's. *)
Definition value_type (sizeof_uintptr_t : nat) (v : DataValue)
  : option (nat * bool) :=
  match v with
  | Object is_pointer repr => Some (length repr, is_pointer)
  | CString _ => Some (sizeof_uintptr_t, true)
  | StdString _ => None
  | CharArray arr => Some (length arr, false)
  end.

(** The state after an append on the slot [td] (whose record was [d]) that
    left [l'] in the slot's list, read the clock [k] times and logged the
    list mutations [body]. *)
Definition appended (td : nat) (d : _PerThreadData) (l' : EventList) (k : Z)
           (body : list Action) (s : State) : State :=
  mkState
    (set_slots
       (<[td := mkThreadData false (_events d) (_threadIndex d)]> (slots s))
       (collector s))
    (<[_events d := l']> (heap s))
    (clock s + k)
    (notices s)
    (trace s
     ++ [StoreWriting td true mo_release; LoadEvents td mo_acquire (_events d)]
     ++ body
     ++ [StoreWriting td false mo_release]).

(** Is the last event of [l] the [Begin] of the scope [key], [cat]? *)
Definition fuses (key : TraceKey) (cat : TraceCategoryId) (l : EventList)
  : option TraceEvent :=
  match last (events l) with
  | Some prev =>
      if PerThreadData.matching_Begin prev (StaticKey key) cat
      then Some prev else None
  | None => None
  end.

(** The list [EndScope] leaves when it runs at time [now] on the list
    [l]. *)
Definition EndScope_list (key : TraceKey) (cat : TraceCategoryId)
           (now : TimeStamp) (l : EventList) : EventList :=
  match fuses key cat l with
  | Some prev =>
      EventList_ReplaceBack
        (mkEvent Timespan (StaticKey key) cat now (PStart (ev_time prev))) l
  | None =>
      EventList_EmplaceBack (mkEvent End (StaticKey key) cat now PNone) l
  end.

(** The log entry of the mutation [EndScope] makes at time [now] on the list
    [l], at the address [p]. *)
Definition EndScope_action (p : addr) (key : TraceKey) (cat : TraceCategoryId)
           (now : TimeStamp) (l : EventList) : Action :=
  match fuses key cat l with
  | Some prev =>
      ListReplaceBack p
        (mkEvent Timespan (StaticKey key) cat now (PStart (ev_time prev)))
  | None =>
      ListEmplaceBack p (mkEvent End (StaticKey key) cat now PNone)
  end.

(** The state after a new slot, with a new empty list, was registered for
    the thread [t]. *)
Definition registered (t : TraceThreadId) (s : State) : State :=
  mkState
    (set_slots (slots s ++ [mkThreadData false (length (heap s)) t])
               (collector s))
    (heap s ++ [EventList_new])
    (clock s) (notices s) (trace s).

(** The state [_GetThreadData] leaves when thread [t] calls it. *)
Definition with_slot (t : TraceThreadId) (s : State) : State :=
  match thread_slot t s with
  | Some _ => s
  | None => registered t s
  end.

(** The slot [_GetThreadData] returns to thread [t], with its record. *)
Definition my_slot (t : TraceThreadId) (s : State) : nat * _PerThreadData :=
  match thread_slot t s with
  | Some x => x
  | None => (length (slots s), mkThreadData false (length (heap s)) t)
  end.

(** The state in which an enabled record operation of thread [t] starts its
    append: the gate was read and the slot of [t] exists. *)
Definition entered (t : TraceThreadId) (s : State) : State :=
  with_slot t (log (LoadEnabled mo_acquire (_isEnabled (collector s))) s).

(** What a harvest of [s] takes from the slot [td]: the slot's list with
    the thread id, unless the list is empty. *)
Definition harvested_from (s : State) (td : nat) : TraceCollection :=
  match slots s !! td with
  | Some d =>
      match heap s !! _events d with
      | Some l => if EventList_IsEmpty l then [] else [(_threadIndex d, l)]
      | None => []
      end
  | None => []
  end.

(** The collection pending in [s]: what a harvest takes from the slots of
    the registry, in order. *)
Definition pending (s : State) : TraceCollection :=
  flat_map (harvested_from s) (seq 0 (length (slots s))).

(** The state after the harvest took the list of the slot [td] (whose
    record was [d]): a new empty list is in its place. *)
Definition swapped (td : nat) (d : _PerThreadData) (s : State) : State :=
  mkState
    (set_slots
       (<[td := mkThreadData (_writing d) (length (heap s)) (_threadIndex d)]>
          (slots s))
       (collector s))
    (heap s ++ [EventList_new])
    (clock s) (notices s)
    (trace s ++ [SwapEvents td mo_acq_rel (_events d) (length (heap s));
                 LoadWriting td mo_acquire (_writing d)]).

(** [l'] is [l] after further appends: events emplaced, a [Begin] at the
    back rewritten by the scope fusion, blocks stored in the arena. *)
Inductive grows (l : EventList) : EventList -> Prop :=
| grows_refl : grows l l
| grows_emplace l' e :
    grows l l' -> grows l (EventList_EmplaceBack e l')
| grows_replace l' prev e :
    grows l l' -> last (events l') = Some prev -> ev_type prev = Begin ->
    grows l (EventList_ReplaceBack e l')
| grows_store l' b :
    grows l l' -> grows l (snd (EventList_StoreBlock b l')).

(** An initial state: no slot, no list, the gate as given. *)
Definition initial (enabled : Z) : State :=
  mkState (mkCollector enabled [] EmptyString) [] 0 [] [].

(** A state with the gate on in which thread 7 has one slot and one pending
    [Begin] event. *)
Definition example_state : State :=
  mkState (mkCollector 1 [mkThreadData false 0 7] EmptyString)
          [mkList [mkEvent Begin (StaticKey 5) 0 0 PNone] []]
          1 [] [].

(** ** Batches and sequences of record operations *)

(** The key/value pairs of a pack, read as [_StoreDataRec] reads it. *)
Fixpoint pack_pairs (args : list PackArg) : list (TraceKey * DataValue) :=
  match args with
  | PKey key :: PValue value :: rest => (key, value) :: pack_pairs rest
  | _ => []
  end.

(** The pack that passes the pairs in order: key, value, key, value... *)
Definition pack_of (pairs : list (TraceKey * DataValue)) : list PackArg :=
  flat_map (fun kv => [PKey (fst kv); PValue (snd kv)]) pairs.

(** A value for which [_StoreData] has an overload: any value but a pointer
    that is not a string. *)
Definition storable (v : DataValue) : Prop :=
  match v with
  | Object true _ => False
  | _ => True
  end.

(** A caller that stores the pairs of a pack with one call of [StoreData]
    each, which is what [ScopeArgs] is documented to replace. *)
Fixpoint StoreData_each (self : TraceThreadId) (sizeof_uintptr_t : nat)
         (cat : TraceCategoryId) (args : list PackArg) : Compiled (M unit) :=
  match args with
  | [] => Accepted (ret tt)
  | PKey key :: PValue value :: rest =>
      match StoreData self sizeof_uintptr_t key value cat,
            StoreData_each self sizeof_uintptr_t cat rest with
      | Accepted one, Accepted more => Accepted (one ;; more)
      | Rejected msg, _ => Rejected msg
      | _, Rejected msg => Rejected msg
      end
  | _ => Rejected no_overload_message
  end.

(** The number of loads of the gate in a log. *)
Fixpoint gate_loads (tr : list Action) : nat :=
  match tr with
  | [] => 0
  | LoadEnabled _ _ :: tr' => S (gate_loads tr')
  | _ :: tr' => gate_loads tr'
  end.

(** The list [StoreLargeData] leaves: the block, then the event with the
    pointer to it. *)
Definition large_stored (key : TraceKey) (cat : TraceCategoryId)
           (now : TimeStamp) (data : LargeData) (l : EventList) : EventList :=
  EventList_EmplaceBack
    (mkEvent Data (StaticKey key) cat now (PArena (length (arena l))))
    (snd (EventList_StoreBlock (block_of data) l)).

(** The list the overload of [_StoreData] for [value] leaves. *)
Definition data_stored (sizeof_uintptr_t : nat) (key : TraceKey)
           (cat : TraceCategoryId) (now : TimeStamp) (value : DataValue)
           (l : EventList) : EventList :=
  match value with
  | Object _ repr =>
      if (length repr <=? sizeof_uintptr_t)%nat
      then EventList_EmplaceBack
             (mkEvent Data (StaticKey key) cat now (PInline repr)) l
      else large_stored key cat now (Blob repr) l
  | CString buf => large_stored key cat now (CStr buf) l
  | StdString str => large_stored key cat now (CStr (c_str str)) l
  | CharArray arr => large_stored key cat now (CStr arr) l
  end.

(** The list [_StoreDataRec] leaves, the first pair stored at time [now]. *)
Fixpoint pack_stored (sizeof_uintptr_t : nat) (cat : TraceCategoryId)
         (now : TimeStamp) (args : list PackArg) (l : EventList) : EventList :=
  match args with
  | PKey key :: PValue value :: rest =>
      pack_stored sizeof_uintptr_t cat (now + 1) rest
                  (data_stored sizeof_uintptr_t key cat now value l)
  | _ => l
  end.

(** The event [e] of the list [l] is the [Data] event of the pair [kv]: it
    has the key, and it holds the value itself, or a pointer into the arena
    of [l] at which the value (for a string: the C string) is read back. *)
Definition holds_value (sizeof_uintptr_t : nat) (l : EventList)
           (kv : TraceKey * DataValue) (e : TraceEvent) : Prop :=
  ev_type e = Data
  /\ ev_key e = StaticKey (fst kv)
  /\ match snd kv with
     | Object _ repr =>
         if (length repr <=? sizeof_uintptr_t)%nat
         then ev_payload e = PInline repr
         else exists p, ev_payload e = PArena p /\ arena l !! p = Some repr
     | CString buf =>
         exists p, ev_payload e = PArena p
                   /\ EventList_ReadString l p = Some (c_str_read buf)
     | StdString str =>
         exists p, ev_payload e = PArena p
                   /\ EventList_ReadString l p = Some (c_str_read str)
     | CharArray arr =>
         exists p, ev_payload e = PArena p
                   /\ EventList_ReadString l p = Some (c_str_read arr)
     end.

(** On a slot whose flag is clear, [m] returns and leaves [F now l] in place
    of the slot's list [l], [now] being the clock, after [k] readings of the
    clock and no load of the gate; nothing else changes. *)
Definition slot_leaves (td : nat) (F : TimeStamp -> EventList -> EventList)
           (k : Z) (m : M unit) : Prop :=
  forall s d l,
    slots s !! td = Some d -> _writing d = false ->
    heap s !! _events d = Some l ->
    exists s',
      m s = Some (tt, s')
      /\ collector s' = collector s
      /\ heap s' = <[_events d := F (clock s) l]> (heap s)
      /\ clock s' = clock s + k
      /\ notices s' = notices s
      /\ gate_loads (trace s') = gate_loads (trace s).

(** With the gate on, [m] returns and leaves [F now l] in place of the
    caller's list [l], after [k] readings of the clock and [g] loads of the
    gate; but for the slot the caller may have got, nothing else changes. *)
Definition leaves (self : TraceThreadId)
           (F : TimeStamp -> EventList -> EventList) (k : Z) (g : nat)
           (m : M unit) : Prop :=
  forall s,
    invariant s -> _isEnabled (collector s) = 1 ->
    exists s',
      m s = Some (tt, s')
      /\ collector s' = collector (with_slot self s)
      /\ heap s'
         = <[_events (snd (my_slot self s))
             := F (clock s) (thread_list self s)]> (heap (with_slot self s))
      /\ clock s' = clock s + k
      /\ notices s' = notices s
      /\ gate_loads (trace s') = (gate_loads (trace s) + g)%nat.

(** With the gate off, [m] returns after its load of the gate. *)
Definition skipped (m : M unit) : Prop :=
  forall s,
    _isEnabled (collector s) <> 1 ->
    m s = Some (tt, log (LoadEnabled mo_acquire (_isEnabled (collector s))) s).

(** [F] only appends: events at the back, blocks at the end of the arena,
    and no pointer of an event it adds is out of the arena. *)
Definition extending (F : TimeStamp -> EventList -> EventList) : Prop :=
  forall now l,
    exists new more,
      events (F now l) = events l ++ new
      /\ arena (F now l) = arena l ++ more
      /\ (forall e p, In e new -> ev_payload e = PArena p ->
                      (p < length (arena l ++ more))%nat).

(** No two slots share a list. *)
Definition separate (s : State) : Prop :=
  forall i j di dj,
    slots s !! i = Some di -> slots s !! j = Some dj ->
    _events di = _events dj -> i = j.

(** Every arena pointer held by an event of [l] is inside the arena of
    [l]. *)
Definition pointers_valid (l : EventList) : Prop :=
  forall e p, In e (events l) -> ev_payload e = PArena p ->
              (p < length (arena l))%nat.

(** The same, for every list of the heap. *)
Definition heap_pointers_valid (s : State) : Prop :=
  forall a l, heap s !! a = Some l -> pointers_valid l.

(** [m], run by thread [self], returns, keeps the invariant and the
    separation of the lists, leaves the list of every other thread as it
    was, only appends to the caller's list, and changes no slot when the
    caller has one. *)
Definition isolated (self : TraceThreadId) (m : M unit) : Prop :=
  forall s,
    invariant s -> separate s ->
    exists s',
      m s = Some (tt, s')
      /\ invariant s' /\ separate s'
      /\ (forall t, t <> self -> thread_list t s' = thread_list t s)
      /\ (exists new more,
             thread_events self s' = thread_events self s ++ new
             /\ thread_arena self s' = thread_arena self s ++ more)
      /\ (is_Some (thread_slot self s) -> slots s' = slots s).

(** [m] returns and keeps every arena pointer of every list valid. *)
Definition keeps_pointers_valid (m : M unit) : Prop :=
  forall s,
    invariant s -> heap_pointers_valid s ->
    exists s', m s = Some (tt, s') /\ invariant s' /\ heap_pointers_valid s'.

(** The states [s1] and [s2] have the same collector, lists, clock and
    notices. *)
Definition same_state (s1 s2 : State) : Prop :=
  collector s1 = collector s2
  /\ heap s1 = heap s2
  /\ clock s1 = clock s2
  /\ notices s1 = notices s2.

(** [m] is a record operation of [self] that only appends: with the gate
    off it returns after the load of the gate, with the gate on it leaves
    the caller's list extended. *)
Definition appends_only (self : TraceThreadId) (m : M unit) : Prop :=
  exists F k g, leaves self F k g m /\ skipped m /\ extending F.

(** A piece of the log that is one complete append on the slot [td] to the
    list at [p]: the flag set, the list loaded, the list mutated, the flag
    cleared. *)
Definition is_append_bracket (td : nat) (p : addr) (chunk : list Action)
  : Prop :=
  exists body,
    chunk = [StoreWriting td true mo_release; LoadEvents td mo_acquire p]
            ++ body ++ [StoreWriting td false mo_release]
    /\ append_body p body = true.

(** On a slot whose flag is clear, [m] returns and logs [n] complete
    appends, one after the other, and nothing else. *)
Definition slot_appends (td : nat) (n : nat) (m : M unit) : Prop :=
  forall s d l,
    slots s !! td = Some d -> _writing d = false ->
    heap s !! _events d = Some l ->
    exists s' chunks,
      m s = Some (tt, s')
      /\ trace s' = trace s ++ concat chunks
      /\ length chunks = n
      /\ Forall (is_append_bracket td (_events d)) chunks.

(** With the gate on, [m] logs one load of the gate and then [n] complete
    appends on the caller's slot, one after the other, and nothing else. *)
Definition logs_appends (self : TraceThreadId) (n : nat) (m : M unit)
           (s : State) : Prop :=
  exists s' chunks,
    m s = Some (tt, s')
    /\ trace s' = trace s ++ LoadEnabled mo_acquire 1 :: concat chunks
    /\ length chunks = n
    /\ Forall (is_append_bracket (fst (my_slot self s))
                                 (_events (snd (my_slot self s)))) chunks.

(** A state with the gate on and two threads: thread 1 has one pending
    event, thread 2 an empty list. *)
Definition two_thread_state : State :=
  mkState (mkCollector 1 [mkThreadData false 0 1; mkThreadData false 1 2]
                       EmptyString)
          [mkList [mkEvent Begin (StaticKey 5) 0 0 PNone] []; mkList [] []]
          1 [] [].

(** A pack of two pairs: a four-byte integer and a string. *)
Definition example_pack : list PackArg :=
  [PKey 1; PValue (Object false [x2a; x00; x00; x00]);
   PKey 2; PValue (StdString [x68; x69])].

(** ** The enable gate *)

Lemma IsEnabled_run (s : State) :
  IsEnabled s
  = Some (Z.eqb (_isEnabled (collector s)) 1,
          log (LoadEnabled mo_acquire (_isEnabled (collector s))) s).
Proof. reflexivity. Qed.

Lemma only_gate_read_log (s : State) :
  only_gate_read s (log (LoadEnabled mo_acquire (_isEnabled (collector s))) s).
Proof. repeat split. Qed.

(** C4: [IsEnabled] is one acquire load of [_isEnabled] and nothing else,
    and it returns true exactly when the value loaded is 1. *)
Theorem IsEnabled_acquire_load_eq_1 (s : State) :
  exists b s',
    IsEnabled s = Some (b, s')
    /\ only_gate_read s s'
    /\ (b = true <-> _isEnabled (collector s) = 1).
Proof.
  exists (Z.eqb (_isEnabled (collector s)) 1),
    (log (LoadEnabled mo_acquire (_isEnabled (collector s))) s).
  split; [apply IsEnabled_run|]. split; [apply only_gate_read_log|].
  apply Z.eqb_eq.
Qed.

(** ** Disabled collector *)

Ltac gate_off H :=
  unfold bind; rewrite IsEnabled_run;
  rewrite (proj2 (Z.eqb_neq _ _) H); simpl;
  eexists; split; [reflexivity | apply only_gate_read_log].

Lemma static_assert_pairs_Accepted {A} (args : list PackArg)
      (body : Compiled A) (a : A) :
  static_assert_pairs args body = Accepted a -> body = Accepted a.
Proof.
  unfold static_assert_pairs. destruct (_ =? _)%nat; [auto | discriminate].
Qed.

(** C2: with the gate off each record operation only reads the gate: it
    creates and changes no slot, list or arena block, and [BeginEvent] and
    [EndEvent] return 0. *)
Theorem disabled_record_operations_do_nothing
        (self : TraceThreadId) (sizeof_uintptr_t : nat) (s : State)
        (Hoff : _isEnabled (collector s) <> 1) :
  (forall key cat, exists s',
      BeginEvent self key cat s = Some (0, s') /\ only_gate_read s s')
  /\ (forall key cat, exists s',
      EndEvent self key cat s = Some (0, s') /\ only_gate_read s s')
  /\ (forall key cat, exists s',
      BeginScope self key cat s = Some (tt, s') /\ only_gate_read s s')
  /\ (forall key cat, exists s',
      EndScope self key cat s = Some (tt, s') /\ only_gate_read s s')
  /\ (forall key start cat, exists s',
      Scope self key start cat s = Some (tt, s') /\ only_gate_read s s')
  /\ (forall key value cat m,
      StoreData self sizeof_uintptr_t key value cat = Accepted m ->
      exists s', m s = Some (tt, s') /\ only_gate_read s s')
  /\ (forall key delta cat, exists s',
      RecordCounterDelta self key delta cat s = Some (tt, s')
      /\ only_gate_read s s')
  /\ (forall key value cat, exists s',
      RecordCounterValue self key value cat s = Some (tt, s')
      /\ only_gate_read s s')
  /\ (forall key delta cat, exists s',
      RecordCounterDelta_Key self key delta cat s = Some (tt, s')
      /\ only_gate_read s s')
  /\ (forall key value cat, exists s',
      RecordCounterValue_Key self key value cat s = Some (tt, s')
      /\ only_gate_read s s')
  /\ (forall cat args m,
      ScopeArgs self sizeof_uintptr_t cat args = Accepted m ->
      exists s', m s = Some (tt, s') /\ only_gate_read s s')
  /\ (forall key cat args m,
      BeginScope_args self sizeof_uintptr_t key cat args = Accepted m ->
      exists s', m s = Some (tt, s') /\ only_gate_read s s').
Proof.
  repeat apply conj; intros.
  - unfold BeginEvent. gate_off Hoff.
  - unfold EndEvent. gate_off Hoff.
  - unfold BeginScope. gate_off Hoff.
  - unfold EndScope. gate_off Hoff.
  - unfold Scope. gate_off Hoff.
  - unfold StoreData in H.
    destruct (_StoreData sizeof_uintptr_t value); [|discriminate].
    injection H as <-. gate_off Hoff.
  - unfold RecordCounterDelta. gate_off Hoff.
  - unfold RecordCounterValue. gate_off Hoff.
  - unfold RecordCounterDelta_Key. gate_off Hoff.
  - unfold RecordCounterValue_Key. gate_off Hoff.
  - apply static_assert_pairs_Accepted in H.
    destruct (_StoreDataRec sizeof_uintptr_t args); [|discriminate].
    injection H as <-. gate_off Hoff.
  - apply static_assert_pairs_Accepted in H.
    destruct (_StoreDataRec sizeof_uintptr_t args); [|discriminate].
    injection H as <-. gate_off Hoff.
Qed.

(** ** Appends on a slot *)

Lemma AtomicRef_run {A} (td : nat) (m : M A) (s : State) (d : _PerThreadData)
      (r : A) (l' : EventList) (k : Z) (body : list Action) :
  slots s !! td = Some d ->
  (forall c tr,
      _allPerThreadData c !! td
      = Some (mkThreadData true (_events d) (_threadIndex d)) ->
      m (mkState c (heap s) (clock s) (notices s) tr)
      = Some (r, mkState c (<[_events d := l']> (heap s)) (clock s + k)
                         (notices s)
                         (tr ++ LoadEvents td mo_acquire (_events d) :: body))) ->
  PerThreadData.AtomicRef td m s = Some (r, appended td d l' k body s).
Proof.
  intros Hd Hm. unfold PerThreadData.AtomicRef, store_writing, bind at 1.
  unfold bind at 1. unfold get_slot, bind at 1. simpl. fold (slots s).
  rewrite Hd. simpl.
  unfold bind at 1. simpl. unfold bind at 1. unfold bind at 1. simpl.
  unfold log at 1, set_collector at 1. simpl.
  rewrite Hm.
  2:{ simpl. apply list_lookup_insert_eq. eapply lookup_lt_Some, Hd. }
  unfold bind. simpl.
  rewrite list_lookup_insert_eq by (eapply lookup_lt_Some, Hd). simpl.
  unfold appended, ret, set_slots, slots, log, set_collector. simpl.
  rewrite list_insert_insert_eq, <- !app_assoc. reflexivity.
Qed.

Ltac run_monad :=
  unfold PerThreadData._BeginScope, PerThreadData._EndScope, EmplaceBack,
    EventList_StoreData, construct, ArchGetTickTime, push_back, replace_back,
    store_block, load_events, get_slot, deref, assign, lift_option, bind,
    get, modify, ret, log, set_heap, set_clock, set_collector; simpl.

Lemma EmplaceEvent_run (td : nat) (args : CtorArgs) (s : State)
      (d : _PerThreadData) (l : EventList) :
  slots s !! td = Some d ->
  heap s !! _events d = Some l ->
  PerThreadData.EmplaceEvent td args s
  = Some (tt, appended td d (EventList_EmplaceBack (event_of args (clock s)) l)
                       1 [ListEmplaceBack (_events d) (event_of args (clock s))]
                       s).
Proof.
  intros Hd Hl. apply AtomicRef_run; [exact Hd|].
  intros c tr Hc. run_monad. rewrite Hc. simpl. rewrite Hl. simpl.
  rewrite <- app_assoc. reflexivity.
Qed.

Lemma BeginScope_run (td : nat) (key : TraceKey) (cat : TraceCategoryId)
      (s : State) (d : _PerThreadData) (l : EventList) :
  slots s !! td = Some d ->
  heap s !! _events d = Some l ->
  PerThreadData.BeginScope td key cat s
  = Some (tt, appended td d
                (EventList_EmplaceBack
                   (mkEvent Begin (StaticKey key) cat (clock s) PNone) l)
                1 [ListEmplaceBack (_events d)
                     (mkEvent Begin (StaticKey key) cat (clock s) PNone)]
                s).
Proof.
  intros Hd Hl. apply AtomicRef_run; [exact Hd|].
  intros c tr Hc. run_monad. rewrite Hc. simpl. rewrite Hl. simpl.
  rewrite <- app_assoc. reflexivity.
Qed.

Lemma StoreData_run (td : nat) (key : TraceKey) (data : list byte)
      (cat : TraceCategoryId) (s : State) (d : _PerThreadData)
      (l : EventList) :
  slots s !! td = Some d ->
  heap s !! _events d = Some l ->
  PerThreadData.StoreData td key data cat s
  = Some (tt, appended td d
                (EventList_EmplaceBack
                   (mkEvent Data (StaticKey key) cat (clock s) (PInline data)) l)
                1 [ListEmplaceBack (_events d)
                     (mkEvent Data (StaticKey key) cat (clock s)
                              (PInline data))]
                s).
Proof.
  intros Hd Hl. apply AtomicRef_run; [exact Hd|].
  intros c tr Hc. run_monad. rewrite Hc. simpl. rewrite Hl. simpl.
  rewrite <- app_assoc. reflexivity.
Qed.

Lemma StoreLargeData_run (td : nat) (key : TraceKey) (data : LargeData)
      (cat : TraceCategoryId) (s : State) (d : _PerThreadData)
      (l : EventList) :
  slots s !! td = Some d ->
  heap s !! _events d = Some l ->
  PerThreadData.StoreLargeData td key data cat s
  = Some (tt, appended td d
                (EventList_EmplaceBack
                   (mkEvent Data (StaticKey key) cat (clock s)
                            (PArena (length (arena l))))
                   (snd (EventList_StoreBlock (block_of data) l)))
                1 [ArenaStore (_events d) (block_of data);
                   ListEmplaceBack (_events d)
                     (mkEvent Data (StaticKey key) cat (clock s)
                              (PArena (length (arena l))))]
                s).
Proof.
  intros Hd Hl. apply AtomicRef_run; [exact Hd|].
  intros c tr Hc. run_monad. rewrite Hc. simpl. rewrite Hl. simpl.
  rewrite list_lookup_insert_eq by (eapply lookup_lt_Some, Hl). simpl.
  rewrite list_insert_insert_eq, <- !app_assoc. reflexivity.
Qed.

Lemma EndScope_run (td : nat) (key : TraceKey) (cat : TraceCategoryId)
      (s : State) (d : _PerThreadData) (l : EventList) :
  slots s !! td = Some d ->
  heap s !! _events d = Some l ->
  PerThreadData.EndScope td key cat s
  = Some (tt, appended td d (EndScope_list key cat (clock s) l) 1
                       [EndScope_action (_events d) key cat (clock s) l] s).
Proof.
  intros Hd Hl. apply AtomicRef_run; [exact Hd|].
  intros c tr Hc. unfold EndScope_list, EndScope_action, fuses.
  run_monad. rewrite Hc. simpl. rewrite Hl. simpl.
  destruct (last (events l)) as [prev|]; simpl.
  - destruct (PerThreadData.matching_Begin prev (StaticKey key) cat); simpl;
      rewrite Hl; simpl; rewrite <- app_assoc; reflexivity.
  - rewrite Hl. simpl. rewrite <- app_assoc. reflexivity.
Qed.

(** ** Scopes *)

Lemma appended_slot (td : nat) (d : _PerThreadData) (l' : EventList) (k : Z)
      (body : list Action) (s : State) :
  slots s !! td = Some d ->
  slots (appended td d l' k body s) !! td
  = Some (mkThreadData false (_events d) (_threadIndex d)).
Proof.
  intros Hd. unfold appended, slots, set_slots. simpl.
  apply list_lookup_insert_eq. eapply lookup_lt_Some, Hd.
Qed.

Lemma appended_heap (td : nat) (d : _PerThreadData) (l l' : EventList) (k : Z)
      (body : list Action) (s : State) :
  heap s !! _events d = Some l ->
  heap (appended td d l' k body s) !! _events d = Some l'.
Proof.
  intros Hl. unfold appended. simpl.
  apply list_lookup_insert_eq. eapply lookup_lt_Some, Hl.
Qed.

Lemma bytes_eqb_eq (a b : list byte) : bytes_eqb a b = true <-> a = b.
Proof.
  revert b. induction a as [|x a IH]; intros [|y b]; simpl;
    try (split; [discriminate | discriminate]); [tauto|].
  rewrite andb_true_iff, IH. unfold byte_eqb. split.
  - intros [Hxy ->]. apply Byte.byte_dec_bl in Hxy. congruence.
  - intros [= -> ->]. split; [apply Byte.byte_dec_lb|]; reflexivity.
Qed.

Lemma EventKey_eqb_eq (a b : EventKey) : EventKey_eqb a b = true <-> a = b.
Proof.
  destruct a as [x|x], b as [y|y]; simpl;
    try (split; [discriminate | discriminate]).
  - rewrite Z.eqb_eq. split; congruence.
  - rewrite bytes_eqb_eq. split; congruence.
Qed.

Lemma matching_Begin_spec (prev : TraceEvent) (key : EventKey)
      (cat : TraceCategoryId) :
  PerThreadData.matching_Begin prev key cat = true
  <-> ev_type prev = Begin /\ ev_key prev = key /\ ev_category prev = cat.
Proof.
  unfold PerThreadData.matching_Begin.
  rewrite !andb_true_iff, EventKey_eqb_eq, Z.eqb_eq.
  destruct (ev_type prev); simpl; intuition congruence.
Qed.

Lemma fuses_after_Begin (key : TraceKey) (cat : TraceCategoryId)
      (t : TimeStamp) (l : EventList) :
  fuses key cat
        (EventList_EmplaceBack (mkEvent Begin (StaticKey key) cat t PNone) l)
  = Some (mkEvent Begin (StaticKey key) cat t PNone).
Proof.
  unfold fuses, EventList_EmplaceBack. simpl. rewrite last_snoc.
  replace (PerThreadData.matching_Begin _ _ _) with true; [reflexivity|].
  symmetry. apply matching_Begin_spec. auto.
Qed.

(** C6: on a slot, [BeginScope] appends a [Begin] event; [EndScope] looks at
    the last event of the list and, when that is the [Begin] of the same key
    and category, rewrites it into a [Timespan], and otherwise appends an
    [End]; so [BeginScope] directly followed by [EndScope] of the same key
    and category adds exactly one event, a [Timespan]. *)
Theorem begin_end_scope_fuse_into_timespan
        (td : nat) (key : TraceKey) (cat : TraceCategoryId) (s : State)
        (d : _PerThreadData) (l : EventList)
        (Hd : slots s !! td = Some d)
        (Hl : heap s !! _events d = Some l) :
  (exists s' l',
      PerThreadData.BeginScope td key cat s = Some (tt, s')
      /\ heap s' !! _events d = Some l'
      /\ events l'
         = events l ++ [mkEvent Begin (StaticKey key) cat (clock s) PNone])
  /\ (exists s' l',
      PerThreadData.EndScope td key cat s = Some (tt, s')
      /\ heap s' !! _events d = Some l'
      /\ (forall prev,
             last (events l) = Some prev ->
             ev_type prev = Begin /\ ev_key prev = StaticKey key
             /\ ev_category prev = cat ->
             events l'
             = removelast (events l)
               ++ [mkEvent Timespan (StaticKey key) cat (clock s)
                           (PStart (ev_time prev))])
      /\ ((forall prev,
              last (events l) = Some prev ->
              ~ (ev_type prev = Begin /\ ev_key prev = StaticKey key
                 /\ ev_category prev = cat)) ->
          events l'
          = events l ++ [mkEvent End (StaticKey key) cat (clock s) PNone]))
  /\ (exists s' l',
      (PerThreadData.BeginScope td key cat ;;
       PerThreadData.EndScope td key cat) s = Some (tt, s')
      /\ heap s' !! _events d = Some l'
      /\ events l'
         = events l
           ++ [mkEvent Timespan (StaticKey key) cat (clock s + 1)
                       (PStart (clock s))]).
Proof.
  repeat apply conj.
  - eexists _, _. split; [apply (BeginScope_run _ _ _ _ _ _ Hd Hl)|].
    split; [eapply appended_heap, Hl | reflexivity].
  - eexists _, _. split; [apply (EndScope_run _ _ _ _ _ _ Hd Hl)|].
    split; [eapply appended_heap, Hl|].
    unfold EndScope_list, fuses. split.
    + intros prev Hlast Hmatch. rewrite Hlast.
      rewrite (proj2 (matching_Begin_spec _ _ _) Hmatch). reflexivity.
    + intros Hno. destruct (last (events l)) as [prev|] eqn:Hlast;
        [|reflexivity].
      destruct (PerThreadData.matching_Begin prev (StaticKey key) cat) eqn:Hm;
        [|reflexivity].
      apply matching_Begin_spec in Hm. destruct (Hno prev eq_refl Hm).
  - unfold bind. rewrite (BeginScope_run _ _ _ _ _ _ Hd Hl).
    erewrite EndScope_run;
      [| apply appended_slot, Hd
       | simpl; apply list_lookup_insert_eq; eapply lookup_lt_Some, Hl].
    eexists _, _. split; [reflexivity|].
    split.
    { simpl. apply list_lookup_insert_eq. rewrite length_insert.
      eapply lookup_lt_Some, Hl. }
    simpl. unfold EndScope_list. rewrite fuses_after_Begin.
    unfold EventList_ReplaceBack, EventList_EmplaceBack. simpl.
    rewrite removelast_last. reflexivity.
Qed.

(** ** The slot of the calling thread *)

Lemma GetThreadData_run (self : TraceThreadId) (s : State) :
  _GetThreadData self s = Some (fst (my_slot self s), with_slot self s).
Proof.
  unfold _GetThreadData, my_slot, with_slot, thread_slot, slots, bind, get.
  destruct (list_find _ _) as [[td d]|]; reflexivity.
Qed.

Lemma my_slot_found (self : TraceThreadId) (s : State) :
  thread_slot self (with_slot self s) = Some (my_slot self s).
Proof.
  unfold with_slot, my_slot.
  destruct (thread_slot self s) as [[td d]|] eqn:Hfind; [exact Hfind|].
  unfold thread_slot in *. apply list_find_Some.
  unfold registered, slots, set_slots; simpl. repeat split.
  - rewrite lookup_app_r by lia. rewrite Nat.sub_diag. reflexivity.
  - intros j y Hj Hlt. rewrite lookup_app_l in Hj by exact Hlt.
    rewrite list_find_None, Forall_forall in Hfind.
    apply Hfind. eapply list_elem_of_lookup_2, Hj.
Qed.

Lemma my_slot_lookup (self : TraceThreadId) (s : State) :
  slots (with_slot self s) !! fst (my_slot self s)
  = Some (snd (my_slot self s))
  /\ _threadIndex (snd (my_slot self s)) = self.
Proof.
  pose proof (my_slot_found self s) as H. unfold thread_slot in H.
  destruct (my_slot self s) as [td d]. apply list_find_Some in H. tauto.
Qed.

(** The list the slot of the calling thread points to. *)
Lemma my_slot_list (self : TraceThreadId) (s : State) :
  wf s ->
  exists l,
    heap (with_slot self s) !! _events (snd (my_slot self s)) = Some l
    /\ l = thread_list self s.
Proof.
  intros Hvalid. unfold with_slot, my_slot, thread_list.
  destruct (thread_slot self s) as [[td d]|] eqn:Hfind; simpl.
  - unfold thread_slot in Hfind. apply list_find_Some in Hfind.
    destruct Hfind as (Hd & _ & _). apply Hvalid in Hd.
    destruct (heap s !! _events d) as [l|] eqn:Hl; [eauto|].
    apply lookup_ge_None in Hl. lia.
  - exists EventList_new. split; [|reflexivity].
    rewrite lookup_app_r by lia. rewrite Nat.sub_diag. reflexivity.
Qed.

Lemma thread_list_appended (self : TraceThreadId) (td : nat)
      (d : _PerThreadData) (l l' : EventList) (k : Z) (body : list Action)
      (s : State) :
  thread_slot self s = Some (td, d) ->
  heap s !! _events d = Some l ->
  thread_list self (appended td d l' k body s) = l'.
Proof.
  intros Hfind Hl. unfold thread_list.
  assert (thread_slot self (appended td d l' k body s)
          = Some (td, mkThreadData false (_events d) (_threadIndex d))) as ->.
  { unfold thread_slot in *. apply list_find_Some in Hfind.
    destruct Hfind as (Hd & Hself & Hfirst).
    apply list_find_Some. repeat split.
    - apply appended_slot, Hd.
    - exact Hself.
    - intros j y Hj Hlt. unfold appended, slots, set_slots in Hj. simpl in Hj.
      rewrite list_lookup_insert_ne in Hj by lia. eauto. }
  simpl. rewrite list_lookup_insert_eq by (eapply lookup_lt_Some, Hl).
  reflexivity.
Qed.

Lemma with_slot_clock (t : TraceThreadId) (s : State) :
  clock (with_slot t s) = clock s.
Proof. unfold with_slot. destruct (thread_slot t s); reflexivity. Qed.

Lemma with_slot_trace (t : TraceThreadId) (s : State) :
  trace (with_slot t s) = trace s.
Proof. unfold with_slot. destruct (thread_slot t s); reflexivity. Qed.

(** An enabled record operation gets to its append in [entered self s], on
    the slot of the calling thread. *)
Lemma entered_slot (self : TraceThreadId) (s : State) :
  wf s ->
  exists td d l,
    _GetThreadData self
      (log (LoadEnabled mo_acquire (_isEnabled (collector s))) s)
    = Some (td, entered self s)
    /\ thread_slot self (entered self s) = Some (td, d)
    /\ slots (entered self s) !! td = Some d
    /\ heap (entered self s) !! _events d = Some l
    /\ l = thread_list self s
    /\ clock (entered self s) = clock s.
Proof.
  intros Hwf. unfold entered.
  set (s1 := log (LoadEnabled mo_acquire (_isEnabled (collector s))) s).
  destruct (my_slot_list self s1 Hwf) as (l & Hl & Hev).
  pose proof (my_slot_found self s1) as Hfound.
  pose proof (my_slot_lookup self s1) as [Hlook _].
  pose proof (GetThreadData_run self s1) as Hrun.
  destruct (my_slot self s1) as [td d]. simpl in *.
  exists td, d, l. repeat split; try assumption.
  rewrite with_slot_clock. reflexivity.
Qed.

Ltac gate_on H :=
  unfold bind at 1; rewrite IsEnabled_run, (proj2 (Z.eqb_eq _ 1) H);
  cbv beta iota; unfold negb; cbv beta iota; unfold bind at 1.

(** ** Counters *)

(** C8: with the gate on, [RecordCounterDelta] appends to the caller's list
    one event of kind [CounterDelta] and [RecordCounterValue] one of kind
    [CounterValue]; the kinds differ and each event holds the double it was
    given, bit for bit. *)
Theorem counter_events_carry_value
        (self : TraceThreadId) (key : TraceKey) (x : double)
        (cat : TraceCategoryId) (s : State)
        (Hwf : wf s) (Hon : _isEnabled (collector s) = 1) :
  (exists s',
      RecordCounterDelta self key x cat s = Some (tt, s')
      /\ thread_events self s'
         = thread_events self s
           ++ [mkEvent CounterDelta (StaticKey key) cat (clock s) (PDouble x)])
  /\ (exists s',
      RecordCounterValue self key x cat s = Some (tt, s')
      /\ thread_events self s'
         = thread_events self s
           ++ [mkEvent CounterValue (StaticKey key) cat (clock s) (PDouble x)])
  /\ CounterDelta <> CounterValue.
Proof.
  destruct (entered_slot self s Hwf) as (td & d & l & Hget & Hfind & Hd & Hl
                                        & Hev & Hclock).
  repeat apply conj; [| |discriminate].
  - unfold RecordCounterDelta. gate_on Hon. rewrite Hget.
    rewrite (EmplaceEvent_run _ _ _ _ _ Hd Hl).
    eexists. split; [reflexivity|].
    unfold thread_events.
    rewrite (thread_list_appended _ _ _ _ _ _ _ _ Hfind Hl).
    simpl. rewrite Hev, Hclock. reflexivity.
  - unfold RecordCounterValue. gate_on Hon. rewrite Hget.
    rewrite (EmplaceEvent_run _ _ _ _ _ Hd Hl).
    eexists. split; [reflexivity|].
    unfold thread_events.
    rewrite (thread_list_appended _ _ _ _ _ _ _ _ Hfind Hl).
    simpl. rewrite Hev, Hclock. reflexivity.
Qed.

(** ** Data batches *)

Lemma thread_list_with_slot (self t : TraceThreadId) (s : State) :
  thread_list t (with_slot self s) = thread_list t s.
Proof.
  unfold with_slot. destruct (thread_slot self s) eqn:Hself; [reflexivity|].
  unfold thread_list, thread_slot, registered, slots, set_slots. simpl.
  destruct (list_find (fun d => _threadIndex d = t)
                      (_allPerThreadData (collector s)))
    as [[i d]|] eqn:Ht.
  - rewrite (list_find_app_l _ _ _ _ _ Ht).
    destruct (heap s !! _events d) as [l|] eqn:Hl.
    + rewrite (lookup_app_l_Some _ _ _ _ Hl). reflexivity.
    + apply lookup_ge_None in Hl. rewrite lookup_app_r by exact Hl.
      destruct (_events d - length (heap s))%nat as [|n]; [reflexivity|].
      reflexivity.
  - rewrite list_find_app_r by exact Ht. simpl.
    destruct (decide (self = t)); simpl; [|reflexivity].
    rewrite lookup_app_r by lia. rewrite Nat.sub_diag. reflexivity.
Qed.

Lemma odd_length_not_pairs {A} (args : list PackArg) (body : Compiled A) :
  Nat.odd (length args) = true ->
  static_assert_pairs args body = Rejected pairs_message.
Proof.
  intros Hodd. unfold static_assert_pairs.
  destruct (Nat.eqb_spec (length args mod 2) 0) as [Heven|]; [|reflexivity].
  apply Nat.Div0.mod_divides in Heven. destruct Heven as [c Hc].
  rewrite Hc, Nat.odd_even in Hodd. discriminate.
Qed.

(** C9: a pack with an odd number of arguments is rejected at compile time,
    by the static assertion, in [ScopeArgs] and in the variants of
    [BeginScope] that take data arguments, with or without a category. *)
Theorem odd_argument_pack_rejected
        (self : TraceThreadId) (sizeof_uintptr_t : nat) (key : TraceKey)
        (cat : TraceCategoryId) (args : list PackArg)
        (Hodd : Nat.odd (length args) = true) :
  ScopeArgs self sizeof_uintptr_t cat args = Rejected pairs_message
  /\ ScopeArgs_default self sizeof_uintptr_t args = Rejected pairs_message
  /\ BeginScope_args self sizeof_uintptr_t key cat args
     = Rejected pairs_message
  /\ BeginScope_args_default self sizeof_uintptr_t key args
     = Rejected pairs_message.
Proof.
  repeat apply conj; apply odd_length_not_pairs, Hodd.
Qed.

(** C10: with the gate on, [ScopeArgs] with a category and no pair compiles
    and appends no event: every list keeps its contents and nothing but the
    gate load is logged.  The call still makes sure the caller has a slot:
    when it had none, a new slot with a new empty list is registered. *)
Theorem ScopeArgs_no_pairs_appends_nothing
        (self : TraceThreadId) (sizeof_uintptr_t : nat)
        (cat : TraceCategoryId) (s : State)
        (Hon : _isEnabled (collector s) = 1) :
  exists m s',
    ScopeArgs self sizeof_uintptr_t cat [] = Accepted m
    /\ m s = Some (tt, s')
    /\ (forall t, thread_events t s' = thread_events t s)
    /\ (forall p l, heap s !! p = Some l -> heap s' !! p = Some l)
    /\ trace s' = trace s ++ [LoadEnabled mo_acquire 1]
    /\ is_Some (thread_slot self s')
    /\ (thread_slot self s = None ->
        slots s' = slots s ++ [mkThreadData false (length (heap s)) self]
        /\ heap s' = heap s ++ [EventList_new])
    /\ (is_Some (thread_slot self s) ->
        collector s' = collector s /\ heap s' = heap s).
Proof.
  eexists _, (entered self s). split; [reflexivity|].
  split.
  { gate_on Hon. rewrite GetThreadData_run. reflexivity. }
  unfold entered.
  set (s1 := log (LoadEnabled mo_acquire (_isEnabled (collector s))) s).
  repeat apply conj.
  - intros t. unfold thread_events. rewrite thread_list_with_slot.
    reflexivity.
  - intros p l Hl. unfold with_slot.
    destruct (thread_slot self s1); [exact Hl|].
    simpl. apply lookup_app_l_Some, Hl.
  - rewrite with_slot_trace. simpl. rewrite Hon. reflexivity.
  - rewrite my_slot_found. eauto.
  - intros Hnone. unfold with_slot.
    change (thread_slot self s1) with (thread_slot self s).
    rewrite Hnone. split; reflexivity.
  - intros [x Hsome]. unfold with_slot.
    change (thread_slot self s1) with (thread_slot self s).
    rewrite Hsome. split; reflexivity.
Qed.

(** ** Data payloads *)

Lemma entered_trace (self : TraceThreadId) (s : State) :
  _isEnabled (collector s) = 1 ->
  trace (entered self s) = trace s ++ [LoadEnabled mo_acquire 1].
Proof.
  intros Hon. unfold entered. rewrite with_slot_trace. simpl.
  rewrite Hon. reflexivity.
Qed.

Lemma StoreData_enabled (self : TraceThreadId) (key : TraceKey)
      (repr : list byte) (cat : TraceCategoryId) (s : State) :
  wf s -> _isEnabled (collector s) = 1 ->
  exists s',
    (en <- IsEnabled ;;
     if (en : bool) then
       threadData <- _GetThreadData self ;;
       PerThreadData.StoreData threadData key repr cat
     else ret tt) s = Some (tt, s')
    /\ stored_inline self key cat repr s s'.
Proof.
  intros Hwf Hon.
  destruct (entered_slot self s Hwf) as (td & d & l & Hget & Hfind & Hd & Hl
                                        & Hev & Hclock).
  gate_on Hon. rewrite Hget. rewrite (StoreData_run _ _ _ _ _ _ _ Hd Hl).
  eexists. split; [reflexivity|].
  unfold stored_inline, thread_events, thread_arena.
  rewrite (thread_list_appended _ _ _ _ _ _ _ _ Hfind Hl).
  simpl. rewrite Hev, Hclock. split; reflexivity.
Qed.

Lemma StoreLargeData_enabled (self : TraceThreadId) (key : TraceKey)
      (data : LargeData) (cat : TraceCategoryId) (s : State) :
  wf s -> _isEnabled (collector s) = 1 ->
  exists s',
    (en <- IsEnabled ;;
     if (en : bool) then
       threadData <- _GetThreadData self ;;
       PerThreadData.StoreLargeData threadData key data cat
     else ret tt) s = Some (tt, s')
    /\ stored_in_arena self key cat (block_of data) s s'.
Proof.
  intros Hwf Hon.
  destruct (entered_slot self s Hwf) as (td & d & l & Hget & Hfind & Hd & Hl
                                        & Hev & Hclock).
  gate_on Hon. rewrite Hget. rewrite (StoreLargeData_run _ _ _ _ _ _ _ Hd Hl).
  eexists. split; [reflexivity|].
  exists (length (arena l)). unfold thread_events, thread_arena.
  rewrite (thread_list_appended _ _ _ _ _ _ _ _ Hfind Hl).
  simpl. rewrite Hev, Hclock. repeat split.
  - rewrite <- Hev. rewrite lookup_app_r by lia.
    rewrite Nat.sub_diag. reflexivity.
  - eexists td, (_events d), _. rewrite (entered_trace _ _ Hon).
    rewrite <- app_assoc. reflexivity.
Qed.

Lemma c_str_read_app_NUL (str : list byte) :
  c_str_read (c_str str) = c_str_read str.
Proof.
  unfold c_str. induction str as [|c str IH]; [reflexivity|].
  simpl. rewrite IH. reflexivity.
Qed.

(** C7 (as amended): with the gate on, [StoreData] puts a value of a
    non-pointer type no larger than a pointer, other than an array of
    characters and a [std::string], into the event itself.  Of a larger
    such type it first copies the object into the arena of the caller's
    list; of a C string, of an array of characters whatever its size and of
    a [std::string] it first copies the C string, that is the bytes before
    the first NUL, and a NUL; the [Data] event appended after that holds
    the pointer to the copy. *)
Theorem StoreData_inline_or_arena
        (self : TraceThreadId) (sizeof_uintptr_t : nat) (key : TraceKey)
        (cat : TraceCategoryId) (s : State)
        (Hwf : wf s) (Hon : _isEnabled (collector s) = 1) :
  (forall repr, (length repr <= sizeof_uintptr_t)%nat ->
     exists m s',
       StoreData self sizeof_uintptr_t key (Object false repr) cat = Accepted m
       /\ m s = Some (tt, s')
       /\ stored_inline self key cat repr s s')
  /\ (forall repr, (sizeof_uintptr_t < length repr)%nat ->
     exists m s',
       StoreData self sizeof_uintptr_t key (Object false repr) cat = Accepted m
       /\ m s = Some (tt, s')
       /\ stored_in_arena self key cat repr s s')
  /\ (forall buf,
     exists m s',
       StoreData self sizeof_uintptr_t key (CString buf) cat = Accepted m
       /\ m s = Some (tt, s')
       /\ stored_in_arena self key cat (c_str_read buf ++ [x00]) s s')
  /\ (forall arr,
     exists m s',
       StoreData self sizeof_uintptr_t key (CharArray arr) cat = Accepted m
       /\ m s = Some (tt, s')
       /\ stored_in_arena self key cat (c_str_read arr ++ [x00]) s s')
  /\ (forall str,
     exists m s',
       StoreData self sizeof_uintptr_t key (StdString str) cat = Accepted m
       /\ m s = Some (tt, s')
       /\ stored_in_arena self key cat (c_str_read str ++ [x00]) s s').
Proof.
  repeat apply conj.
  - intros repr Hsmall.
    destruct (StoreData_enabled self key repr cat s Hwf Hon) as (s' & Hrun & Hs).
    eexists _, s'. unfold StoreData, _StoreData.
    rewrite (proj2 (Nat.leb_le _ _) Hsmall). eauto.
  - intros repr Hlarge.
    destruct (StoreLargeData_enabled self key (Blob repr) cat s Hwf Hon)
      as (s' & Hrun & Hs).
    eexists _, s'. unfold StoreData, _StoreData.
    rewrite (proj2 (Nat.leb_gt _ _) Hlarge). eauto.
  - intros buf.
    destruct (StoreLargeData_enabled self key (CStr buf) cat s Hwf Hon)
      as (s' & Hrun & Hs).
    eexists _, s'. unfold StoreData, _StoreData. eauto.
  - intros arr.
    destruct (StoreLargeData_enabled self key (CStr arr) cat s Hwf Hon)
      as (s' & Hrun & Hs).
    eexists _, s'. unfold StoreData, _StoreData. eauto.
  - intros str.
    destruct (StoreLargeData_enabled self key (CStr (c_str str)) cat s Hwf Hon)
      as (s' & Hrun & Hs).
    simpl block_of in Hs. rewrite c_str_read_app_NUL in Hs.
    eexists _, s'. unfold StoreData, _StoreData. eauto.
Qed.

(** C7, the claim as stated: an array of characters is of a non-pointer
    type, and [char[4]] is no larger than a pointer, yet its value is not
    stored in the event: the overload for C strings takes it and copies it
    into the arena. *)
Lemma small_char_array_is_stored_in_arena :
  ~ (forall (value : DataValue) (size : nat) m s',
        value_type 8 value = Some (size, false) ->
        (size <= 8)%nat ->
        StoreData 7%nat 8%nat 5 value 0 = Accepted m ->
        m (initial 1) = Some (tt, s') ->
        exists repr, stored_inline 7%nat 5 0 repr (initial 1) s').
Proof.
  intros H.
  pose (m := en <- IsEnabled ;;
             if (en : bool) then
               threadData <- _GetThreadData 7%nat ;;
               PerThreadData.StoreLargeData threadData 5
                 (CStr [x68; x69; x00; x00]) 0
             else ret tt).
  destruct (m (initial 1)) as [[[] s']|] eqn:Hm;
    [|vm_compute in Hm; discriminate Hm].
  assert (4 <= 8)%nat as Hsize by (apply Nat.leb_le; reflexivity).
  destruct (H (CharArray [x68; x69; x00; x00]) 4%nat m s' eq_refl Hsize
              eq_refl Hm) as (repr & _ & Harena).
  vm_compute in Hm. injection Hm as <-.
  vm_compute in Harena. discriminate Harena.
Qed.

(** ** Harvest *)

Lemma GetCollectionData_run (td : nat) (s : State) (d : _PerThreadData) :
  slots s !! td = Some d ->
  _writing d = false ->
  PerThreadData.GetCollectionData td s = Some (_events d, swapped td d s).
Proof.
  intros Hd Hw. unfold slots in Hd.
  unfold PerThreadData.GetCollectionData, new_EventList, exchange_events,
    load_writing, put_slot, get_slot, lift_option, bind, get, modify, ret.
  simpl. rewrite Hd. simpl.
  rewrite list_lookup_insert_eq by (eapply lookup_lt_Some, Hd). simpl.
  rewrite Hw. unfold swapped, log, set_collector, set_heap. simpl.
  rewrite Hw, <- app_assoc. reflexivity.
Qed.

Lemma harvested_from_swapped (td r : nat) (d : _PerThreadData) (s : State) :
  wf s -> r <> td ->
  harvested_from (swapped td d s) r = harvested_from s r.
Proof.
  intros Hwf Hne. unfold harvested_from, swapped, slots, set_slots. simpl.
  rewrite list_lookup_insert_ne by congruence.
  destruct (_allPerThreadData (collector s) !! r) as [dr|] eqn:Hr;
    [|reflexivity].
  apply Hwf in Hr. rewrite lookup_app_l by exact Hr. reflexivity.
Qed.

Lemma harvested_from_rest (td : nat) (d : _PerThreadData) (s : State)
      (rest : list nat) :
  wf s -> td ∉ rest ->
  flat_map (harvested_from (swapped td d s)) rest
  = flat_map (harvested_from s) rest.
Proof.
  intros Hwf. induction rest as [|r rest IH]; intros Hnotin; [reflexivity|].
  apply not_elem_of_cons in Hnotin as [Hne Hnotin]. simpl.
  rewrite IH by exact Hnotin.
  rewrite harvested_from_swapped by auto. reflexivity.
Qed.

(** What the harvest of the slots [tds] leaves. *)
Lemma harvest_run (tds : list nat) :
  forall s,
    NoDup tds ->
    (forall td, td ∈ tds -> (td < length (slots s))%nat) ->
    wf s -> quiescent s ->
    exists s',
      harvest tds s = Some (flat_map (harvested_from s) tds, s')
      /\ heap s' = heap s ++ replicate (length tds) EventList_new
      /\ notices s' = notices s
      /\ length (slots s') = length (slots s)
      /\ (forall td d', slots s' !! td = Some d' ->
            exists d, slots s !! td = Some d
                      /\ _threadIndex d' = _threadIndex d
                      /\ _writing d' = _writing d
                      /\ (td ∈ tds ->
                          heap s' !! _events d' = Some EventList_new)
                      /\ (td ∉ tds -> d' = d)).
Proof.
  induction tds as [|td rest IH]; intros s Hnodup Hbound Hwf Hq.
  - exists s. simpl. rewrite app_nil_r. repeat split; try reflexivity.
    intros td d' Hd'. exists d'. repeat split; try assumption.
    intros Hin. inversion Hin.
  - apply NoDup_cons in Hnodup as [Hnotin Hnodup].
    assert (td < length (slots s))%nat as Htd by (apply Hbound; left).
    destruct (lookup_lt_is_Some_2 _ _ Htd) as [d Hd].
    pose proof (Hq _ _ Hd) as Hw.
    pose proof (Hwf _ _ Hd) as Hp.
    destruct (lookup_lt_is_Some_2 _ _ Hp) as [l Hl].
    set (s1 := swapped td d s).
    assert (slots s1 !! td
            = Some (mkThreadData (_writing d) (length (heap s))
                                 (_threadIndex d))) as Hd1.
    { unfold s1, swapped, slots, set_slots. simpl.
      apply list_lookup_insert_eq. exact Htd. }
    assert (length (slots s1) = length (slots s)) as Hlen1.
    { unfold s1, swapped, slots, set_slots. simpl. apply length_insert. }
    assert (wf s1) as Hwf1.
    { intros r dr Hr. unfold s1, swapped in *. simpl.
      rewrite length_app. simpl.
      unfold slots, set_slots in Hr. simpl in Hr.
      destruct (decide (r = td)) as [->|Hne].
      - rewrite list_lookup_insert_eq in Hr by exact Htd.
        injection Hr as <-. simpl. lia.
      - rewrite list_lookup_insert_ne in Hr by congruence.
        apply Hwf in Hr. lia. }
    assert (quiescent s1) as Hq1.
    { intros r dr Hr. unfold s1, swapped, slots, set_slots in Hr.
      simpl in Hr. destruct (decide (r = td)) as [->|Hne].
      - rewrite list_lookup_insert_eq in Hr by exact Htd.
        injection Hr as <-. exact Hw.
      - rewrite list_lookup_insert_ne in Hr by congruence.
        eapply Hq, Hr. }
    destruct (IH s1 Hnodup) as (s' & Hrun & Hheap & Hnot & Hlen & Hslots);
      try assumption.
    { intros r Hr. rewrite Hlen1. apply Hbound. right. exact Hr. }
    exists s'. split.
    { simpl. unfold bind at 1.
      rewrite (GetCollectionData_run _ _ _ Hd Hw). fold s1.
      unfold bind at 1, deref, bind at 1, get, lift_option.
      replace (heap s1 !! _events d) with (Some l)
        by (symmetry; apply lookup_app_l_Some, Hl).
      unfold ret at 1. unfold bind at 1, get_slot, bind at 1, get, lift_option.
      fold (slots s1). rewrite Hd1. unfold ret at 1.
      unfold bind at 1. rewrite Hrun. unfold ret.
      unfold s1. rewrite harvested_from_rest by assumption.
      unfold harvested_from at 3. rewrite Hd, Hl. simpl.
      destruct (EventList_IsEmpty l); reflexivity. }
    rewrite Hheap, Hnot, Hlen, Hlen1. repeat split.
    { unfold s1, swapped. simpl. rewrite <- app_assoc. reflexivity. }
    intros r d' Hd'.
    destruct (Hslots r d' Hd') as (d0 & Hd0 & Hidx & Hwr & Hin & Hout).
    destruct (decide (r = td)) as [->|Hne].
    + rewrite Hd1 in Hd0. injection Hd0 as <-.
      exists d. split; [exact Hd|]. split; [exact Hidx|].
      split; [exact Hwr|]. split.
      * intros _. rewrite (Hout Hnotin). simpl.
        unfold s1, swapped. simpl.
        rewrite <- app_assoc. rewrite lookup_app_r by lia.
        rewrite Nat.sub_diag. reflexivity.
      * intros Hno. exfalso. apply Hno. left.
    + unfold s1, swapped, slots, set_slots in Hd0. simpl in Hd0.
      rewrite list_lookup_insert_ne in Hd0 by congruence.
      exists d0. split; [exact Hd0|]. split; [exact Hidx|].
      split; [exact Hwr|]. split.
      * intros Hr. apply elem_of_cons in Hr as [Hr|Hr]; [congruence|].
        rewrite <- Hheap. apply Hin, Hr.
      * intros Hr. apply Hout. intros Hr'. apply Hr. right. exact Hr'.
Qed.

Lemma pending_has_thread_list (t : TraceThreadId) (s : State) :
  thread_events t s <> [] -> (t, thread_list t s) ∈ pending s.
Proof.
  unfold thread_events, thread_list, pending. intros Hne.
  destruct (thread_slot t s) as [[td d]|] eqn:Hfind; [|destruct Hne; reflexivity].
  unfold thread_slot in Hfind. apply list_find_Some in Hfind.
  destruct Hfind as (Hd & Ht & _).
  destruct (heap s !! _events d) as [l|] eqn:Hl; [|destruct Hne; reflexivity].
  apply list_elem_of_In, in_flat_map. exists td. split.
  - apply in_seq. apply lookup_lt_Some in Hd. lia.
  - unfold harvested_from. rewrite Hd, Hl. unfold EventList_IsEmpty.
    destruct (events l); [destruct Hne; reflexivity|].
    rewrite Ht. left. reflexivity.
Qed.

Lemma pending_from_slot (t : TraceThreadId) (l : EventList) (s : State) :
  (t, l) ∈ pending s ->
  exists td d,
    slots s !! td = Some d /\ _threadIndex d = t
    /\ heap s !! _events d = Some l /\ events l <> [].
Proof.
  unfold pending. intros Hin. apply list_elem_of_In, in_flat_map in Hin.
  destruct Hin as (td & _ & Hin). unfold harvested_from in Hin.
  destruct (slots s !! td) as [d|] eqn:Hd; [|destruct Hin].
  destruct (heap s !! _events d) as [l0|] eqn:Hl; [|destruct Hin].
  unfold EventList_IsEmpty in Hin.
  destruct (events l0) eqn:Hev; [destruct Hin|].
  destruct Hin as [[= <- <-]|[]]. exists td, d.
  rewrite Hev. repeat split; try assumption. discriminate.
Qed.

Lemma CreateCollection_run (s : State) :
  wf s -> quiescent s ->
  exists s',
    CreateCollection s = Some (tt, s')
    /\ notices s' = notices s ++ [pending s]
    /\ (forall t, thread_events t s' = [])
    /\ invariant s'.
Proof.
  intros Hwf Hq.
  destruct (harvest_run (seq 0 (length (slots s))) s)
    as (s1 & Hrun & Hheap & Hnot & Hlen & Hslots); try assumption.
  { apply NoDup_seq. }
  { intros td Htd. apply elem_of_seq in Htd. lia. }
  exists (add_notice (pending s) s1). split.
  { unfold CreateCollection, bind, get. fold (slots s). rewrite Hrun.
    reflexivity. }
  split; [simpl; rewrite Hnot; reflexivity|].
  assert (forall td d', slots s1 !! td = Some d' ->
            heap s1 !! _events d' = Some EventList_new
            /\ _writing d' = false) as Hfresh.
  { intros td d' Hd'. destruct (Hslots td d' Hd') as (d & Hd & _ & Hwr & Hin & _).
    split.
    - apply Hin, elem_of_seq. apply lookup_lt_Some in Hd. lia.
    - rewrite Hwr. eapply Hq, Hd. }
  split; [|split].
  - intros t. unfold thread_events, thread_list, thread_slot.
    change (slots (add_notice (pending s) s1)) with (slots s1).
    change (heap (add_notice (pending s) s1)) with (heap s1).
    destruct (list_find _ (slots s1)) as [[td d']|] eqn:Hfind; [|reflexivity].
    apply list_find_Some in Hfind. destruct Hfind as (Hd' & _ & _).
    rewrite (proj1 (Hfresh td d' Hd')). reflexivity.
  - intros td d' Hd'. eapply lookup_lt_Some, (proj1 (Hfresh td d' Hd')).
  - intros td d' Hd'. apply (proj2 (Hfresh td d' Hd')).
Qed.

(** C1 (as amended): from a state in which no thread is inside an append,
    [CreateCollection] returns, with no value; it sends one notice, which
    carries the collection of the lists of all threads that had events, and
    leaves every thread with an empty list. *)
Theorem CreateCollection_publishes_collection
        (s : State) (Hwf : wf s) (Hq : quiescent s) :
  exists s',
    CreateCollection s = Some (tt, s')
    /\ notices s' = notices s ++ [pending s]
    /\ (forall t, thread_events t s <> [] ->
                  (t, thread_list t s) ∈ pending s)
    /\ (forall t l, (t, l) ∈ pending s ->
          exists td d,
            slots s !! td = Some d /\ _threadIndex d = t
            /\ heap s !! _events d = Some l /\ events l <> [])
    /\ (forall t, thread_events t s' = []).
Proof.
  destruct (CreateCollection_run s Hwf Hq)
    as (s' & Hrun & Hnot & Hempty & _).
  exists s'. split; [exact Hrun|]. split; [exact Hnot|].
  split; [intros t; apply pending_has_thread_list|].
  split; [intros t l; apply pending_from_slot|].
  exact Hempty.
Qed.

(** C1, the claim as stated: the value [CreateCollection] returns does not
    give the collection; it returns the same, empty, value from a state with
    no event and from a state with one. *)
Lemma CreateCollection_returns_no_collection :
  ~ exists returned : unit -> TraceCollection,
      forall s r s',
        CreateCollection s = Some (r, s') -> returned r = pending s.
Proof.
  intros [returned Hret].
  pose (e := mkEvent Begin (StaticKey 5) 0 0 PNone).
  pose (s1 := mkState (mkCollector 1 [mkThreadData false 0 7] EmptyString)
                      [mkList [e] []] 1 [] []).
  assert (returned tt = pending (initial 1)) as H0.
  { eapply Hret. reflexivity. }
  assert (returned tt = pending s1) as H1.
  { eapply Hret. reflexivity. }
  rewrite H0 in H1. discriminate H1.
Qed.

(** ** Strings in the arena *)

Lemma c_str_read_c_str (str : list byte) :
  c_str_read (c_str_read (c_str str) ++ [x00]) = c_str_read str.
Proof.
  unfold c_str. induction str as [|c str IH]; [reflexivity|].
  simpl. destruct (byte_eqb c x00) eqn:Hc; [reflexivity|].
  simpl. rewrite Hc, IH. reflexivity.
Qed.

Lemma c_str_read_no_NUL (str : list byte) :
  x00 ∉ str -> c_str_read str = str.
Proof.
  induction str as [|c str IH]; intros Hno; [reflexivity|].
  apply not_elem_of_cons in Hno as [Hne Hno]. simpl.
  destruct (byte_eqb c x00) eqn:Hc.
  - apply Byte.byte_dec_bl in Hc. congruence.
  - rewrite IH by exact Hno. reflexivity.
Qed.

Lemma In_removelast {A} (x prev : A) (l : list A) :
  In x l -> last l = Some prev -> x <> prev -> In x (removelast l).
Proof.
  intros Hin Hlast Hne.
  destruct (exists_last (l := l)) as (l0 & y & ->).
  { intros ->. destruct Hin. }
  rewrite last_snoc in Hlast. injection Hlast as ->.
  rewrite removelast_last. apply in_app_or in Hin as [Hin|[Hin|[]]];
    [exact Hin | congruence].
Qed.

(** Growth keeps the arena blocks, and the [Data] events, of a list. *)
Lemma grows_keeps (l l' : EventList) :
  grows l l' ->
  (exists more, arena l' = arena l ++ more)
  /\ (forall e, In e (events l) -> ev_type e = Data -> In e (events l')).
Proof.
  induction 1 as [|l' e Hg [[more Har] Hev]|l' prev e Hg [[more Har] Hev] Hlast Hty
                  |l' b Hg [[more Har] Hev]].
  - split; [exists []; rewrite app_nil_r; reflexivity | auto].
  - split; [exists more; exact Har|].
    intros x Hx Hd. simpl. apply in_or_app. left. auto.
  - split; [exists more; exact Har|].
    intros x Hx Hd. simpl. apply in_or_app. left.
    eapply In_removelast; [auto | exact Hlast | congruence].
  - split; [|exact Hev].
    exists (more ++ [b]). simpl. rewrite Har, app_assoc. reflexivity.
Qed.

Lemma grows_read (l l' : EventList) (ptr : ArenaPtr) (str : list byte) :
  grows l l' ->
  EventList_ReadString l ptr = Some str ->
  EventList_ReadString l' ptr = Some str.
Proof.
  intros Hg. destruct (grows_keeps l l' Hg) as [[more Har] _].
  unfold EventList_ReadString. rewrite Har.
  destruct (arena l !! ptr) as [b|] eqn:Hb; [|discriminate].
  rewrite (lookup_app_l_Some _ _ _ _ Hb). auto.
Qed.

(** C5 (as amended): with the gate on, [StoreData] of a [std::string] copies
    the string into the arena of the caller's list as a C string, that is
    up to its first NUL byte, and appends a [Data] event with the pointer.
    Whatever is appended to the list later, the event stays and the pointer
    reads back those bytes, also from the list a harvest hands out; for a
    string with no NUL byte they are the string itself. *)
Theorem StoreData_string_read_back
        (self : TraceThreadId) (sizeof_uintptr_t : nat) (key : TraceKey)
        (cat : TraceCategoryId) (str : list byte) (s : State)
        (Hwf : wf s) (Hon : _isEnabled (collector s) = 1) :
  exists m s' ptr,
    StoreData self sizeof_uintptr_t key (StdString str) cat = Accepted m
    /\ m s = Some (tt, s')
    /\ last (thread_events self s')
       = Some (mkEvent Data (StaticKey key) cat (clock s) (PArena ptr))
    /\ (forall l,
          grows (thread_list self s') l ->
          In (mkEvent Data (StaticKey key) cat (clock s) (PArena ptr))
             (events l)
          /\ EventList_ReadString l ptr = Some (c_str_read str))
    /\ (forall s2,
          wf s2 -> quiescent s2 ->
          grows (thread_list self s') (thread_list self s2) ->
          exists s3,
            CreateCollection s2 = Some (tt, s3)
            /\ last (notices s3) = Some (pending s2)
            /\ (self, thread_list self s2) ∈ pending s2)
    /\ (x00 ∉ str -> c_str_read str = str).
Proof.
  destruct (StoreLargeData_enabled self key (CStr (c_str str)) cat s Hwf Hon)
    as (s' & Hrun & ptr & Hev & Har & Hptr & _).
  assert (forall l, grows (thread_list self s') l ->
            In (mkEvent Data (StaticKey key) cat (clock s) (PArena ptr))
               (events l)
            /\ EventList_ReadString l ptr = Some (c_str_read str)) as Hgrow.
  { intros l Hg. split.
    - apply (proj2 (grows_keeps _ _ Hg)); [|reflexivity].
      fold (thread_events self s'). rewrite Hev.
      apply in_or_app. right. left. reflexivity.
    - apply (grows_read _ _ _ _ Hg). unfold EventList_ReadString.
      fold (thread_arena self s'). rewrite Hptr. simpl.
      rewrite c_str_read_c_str. reflexivity. }
  eexists _, s', ptr. split; [reflexivity|]. split; [exact Hrun|].
  split; [rewrite Hev; apply last_snoc|].
  split; [exact Hgrow|].
  split; [|apply c_str_read_no_NUL].
  intros s2 Hwf2 Hq2 Hg.
  destruct (CreateCollection_run s2 Hwf2 Hq2) as (s3 & Hrun3 & Hnot & _).
  exists s3. split; [exact Hrun3|].
  split; [rewrite Hnot; apply last_snoc|].
  apply pending_has_thread_list. unfold thread_events.
  destruct (Hgrow _ Hg) as [Hin _].
  intros Hnil. rewrite Hnil in Hin. destruct Hin.
Qed.

(** C5, the claim as stated: a string with a NUL byte inside is not read
    back byte-identical from the harvested list; of the three bytes
    [a NUL b] only [a] is stored. *)
Lemma StoreData_string_with_NUL_truncated :
  ~ (forall (str : list byte) m s' s'',
        StoreData 0%nat 8%nat 1 (StdString str) 0 = Accepted m ->
        m (initial 1) = Some (tt, s') ->
        CreateCollection s' = Some (tt, s'') ->
        exists coll l e ptr,
          last (notices s'') = Some coll
          /\ (0%nat, l) ∈ coll
          /\ last (events l) = Some e
          /\ ev_payload e = PArena ptr
          /\ EventList_ReadString l ptr = Some str).
Proof.
  intros H.
  pose (m := en <- IsEnabled ;;
             if (en : bool) then
               threadData <- _GetThreadData 0%nat ;;
               PerThreadData.StoreLargeData threadData 1
                 (CStr (c_str [x61; x00; x62])) 0
             else ret tt).
  destruct (m (initial 1)) as [[[] s']|] eqn:Hm;
    [|vm_compute in Hm; discriminate Hm].
  destruct (CreateCollection s') as [[[] s'']|] eqn:Hc;
    [|vm_compute in Hm; injection Hm as <-; vm_compute in Hc; discriminate Hc].
  destruct (H [x61; x00; x62] m s' s'' eq_refl Hm Hc)
    as (coll & l & e & ptr & Hcoll & Hin & Hlast & Hp & Hread).
  vm_compute in Hm. injection Hm as <-.
  vm_compute in Hc. injection Hc as <-.
  vm_compute in Hcoll. injection Hcoll as <-.
  apply list_elem_of_singleton in Hin. injection Hin as ->.
  vm_compute in Hlast. injection Hlast as <-.
  simpl in Hp. injection Hp as <-.
  vm_compute in Hread. discriminate Hread.
Qed.

(** ** The recording API returns and keeps the invariant *)

Lemma invariant_initial (enabled : Z) : invariant (initial enabled).
Proof. split; intros td d Hd; destruct td; discriminate Hd. Qed.

Lemma invariant_appended (td : nat) (d : _PerThreadData) (l' : EventList)
      (k : Z) (body : list Action) (s : State) :
  invariant s -> slots s !! td = Some d ->
  invariant (appended td d l' k body s).
Proof.
  intros [Hwf Hq] Hd. split; intros r dr Hr;
    unfold appended, slots, set_slots in Hr; simpl in Hr;
    destruct (decide (r = td)) as [->|Hne].
  - rewrite list_lookup_insert_eq in Hr by (eapply lookup_lt_Some, Hd).
    injection Hr as <-. simpl. rewrite length_insert. eapply Hwf, Hd.
  - rewrite list_lookup_insert_ne in Hr by congruence.
    simpl. rewrite length_insert. eapply Hwf, Hr.
  - rewrite list_lookup_insert_eq in Hr by (eapply lookup_lt_Some, Hd).
    injection Hr as <-. reflexivity.
  - rewrite list_lookup_insert_ne in Hr by congruence. eapply Hq, Hr.
Qed.

Lemma invariant_with_slot (self : TraceThreadId) (s : State) :
  invariant s -> invariant (with_slot self s).
Proof.
  intros [Hwf Hq]. unfold with_slot.
  destruct (thread_slot self s); [split; assumption|].
  split; intros r dr Hr; unfold registered, slots, set_slots in Hr;
    simpl in Hr; apply lookup_app_Some in Hr as [Hr|[Hlen Hr]].
  - simpl. rewrite length_app. apply Hwf in Hr. simpl. lia.
  - destruct (r - length (_allPerThreadData (collector s)))%nat;
      [|discriminate Hr].
    injection Hr as <-. simpl. rewrite length_app. simpl. lia.
  - eapply Hq, Hr.
  - destruct (r - length (_allPerThreadData (collector s)))%nat;
      [|discriminate Hr].
    injection Hr as <-. reflexivity.
Qed.

Lemma total_on_append {A} (td : nat) (m : M A) :
  (forall s d l,
      slots s !! td = Some d -> heap s !! _events d = Some l ->
      exists r l' k body, m s = Some (r, appended td d l' k body s)) ->
  total_on td m.
Proof.
  intros Hm s Hinv Htd.
  destruct (lookup_lt_is_Some_2 _ _ Htd) as [d Hd].
  destruct (lookup_lt_is_Some_2 _ _ (proj1 Hinv _ _ Hd)) as [l Hl].
  destruct (Hm s d l Hd Hl) as (r & l' & k & body & Hrun).
  exists r, (appended td d l' k body s). split; [exact Hrun|].
  split; [apply invariant_appended; assumption|].
  unfold appended, slots, set_slots. simpl. apply length_insert.
Qed.

Lemma total_on_ret {A} (td : nat) (a : A) : total_on td (ret a).
Proof. intros s Hinv Htd. exists a, s. auto. Qed.

Lemma total_on_bind {A B} (td : nat) (m : M A) (f : A -> M B) :
  total_on td m -> (forall a, total_on td (f a)) -> total_on td (bind m f).
Proof.
  intros Hm Hf s Hinv Htd.
  destruct (Hm s Hinv Htd) as (a & s1 & Hrun1 & Hinv1 & Hlen1).
  destruct (Hf a s1 Hinv1) as (b & s2 & Hrun2 & Hinv2 & Hlen2);
    [rewrite Hlen1; exact Htd|].
  exists b, s2. unfold bind. rewrite Hrun1. split; [exact Hrun2|].
  split; [exact Hinv2 | congruence].
Qed.

Lemma BeginEvent_run (td : nat) (key : Key) (cat : TraceCategoryId)
      (s : State) (d : _PerThreadData) (l : EventList) :
  slots s !! td = Some d ->
  heap s !! _events d = Some l ->
  PerThreadData.BeginEvent td key cat s
  = Some (clock s,
          appended td d
            (EventList_EmplaceBack
               (mkEvent Begin (DynamicKey key) cat (clock s) PNone) l)
            1 [ListEmplaceBack (_events d)
                 (mkEvent Begin (DynamicKey key) cat (clock s) PNone)]
            s).
Proof.
  intros Hd Hl. apply AtomicRef_run; [exact Hd|].
  intros c tr Hc. run_monad. rewrite Hc. simpl. rewrite Hl. simpl.
  rewrite <- app_assoc. reflexivity.
Qed.

Lemma EndEvent_run (td : nat) (key : Key) (cat : TraceCategoryId)
      (s : State) (d : _PerThreadData) (l : EventList) :
  slots s !! td = Some d ->
  heap s !! _events d = Some l ->
  PerThreadData.EndEvent td key cat s
  = Some (clock s,
          appended td d
            (EventList_EmplaceBack
               (mkEvent End (DynamicKey key) cat (clock s) PNone) l)
            1 [ListEmplaceBack (_events d)
                 (mkEvent End (DynamicKey key) cat (clock s) PNone)]
            s).
Proof.
  intros Hd Hl. apply AtomicRef_run; [exact Hd|].
  intros c tr Hc. run_monad. rewrite Hc. simpl. rewrite Hl. simpl.
  rewrite <- app_assoc. reflexivity.
Qed.

Lemma total_on_EmplaceEvent (td : nat) (args : CtorArgs) :
  total_on td (PerThreadData.EmplaceEvent td args).
Proof.
  apply total_on_append. intros s d l Hd Hl.
  rewrite (EmplaceEvent_run _ _ _ _ _ Hd Hl). eauto.
Qed.

Lemma total_on_StoreData (sizeof_uintptr_t : nat) (value : DataValue)
      (store : nat -> TraceKey -> TraceCategoryId -> M unit) :
  _StoreData sizeof_uintptr_t value = Accepted store ->
  forall td key cat, total_on td (store td key cat).
Proof.
  intros Hacc td key cat. apply total_on_append. intros s d l Hd Hl.
  destruct value as [[|] repr|buf|str|arr]; simpl in Hacc;
    try discriminate Hacc.
  - destruct (length repr <=? sizeof_uintptr_t)%nat;
      injection Hacc as <-.
    + rewrite (StoreData_run _ _ _ _ _ _ _ Hd Hl). eauto.
    + rewrite (StoreLargeData_run _ _ _ _ _ _ _ Hd Hl). eauto.
  - injection Hacc as <-.
    rewrite (StoreLargeData_run _ _ _ _ _ _ _ Hd Hl). eauto.
  - injection Hacc as <-.
    rewrite (StoreLargeData_run _ _ _ _ _ _ _ Hd Hl). eauto.
  - injection Hacc as <-.
    rewrite (StoreLargeData_run _ _ _ _ _ _ _ Hd Hl). eauto.
Qed.

Lemma pairs_ind {A} (P : list A -> Prop) :
  P [] -> (forall a, P [a]) ->
  (forall a b rest, P rest -> P (a :: b :: rest)) ->
  forall l, P l.
Proof.
  intros Hnil Hone Hstep l.
  assert (P l /\ forall a, P (a :: l)) as [H _]; [|exact H].
  induction l as [|b l [IH1 IH2]]; [auto|].
  split; [apply IH2|]. intros a. apply Hstep, IH1.
Qed.

Lemma total_on_StoreDataRec (sizeof_uintptr_t : nat) (args : list PackArg) :
  forall store,
    _StoreDataRec sizeof_uintptr_t args = Accepted store ->
    forall td cat, total_on td (store td cat).
Proof.
  induction args as [|a|a b rest IH] using pairs_ind; intros store Hacc td cat.
  - injection Hacc as <-. apply total_on_ret.
  - destruct a; discriminate Hacc.
  - simpl in Hacc. destruct a as [key|]; [|discriminate Hacc].
    destruct b as [|value]; [discriminate Hacc|].
    destruct (_StoreData sizeof_uintptr_t value) as [st|] eqn:Hst;
      destruct (_StoreDataRec sizeof_uintptr_t rest) as [more|];
      try discriminate Hacc.
    injection Hacc as <-. apply total_on_bind.
    + apply (total_on_StoreData _ _ _ Hst).
    + intros _. apply IH. reflexivity.
Qed.

Lemma with_thread_data {A} (self : TraceThreadId) (f : nat -> M A) :
  (forall td, total_on td (f td)) ->
  returns_with_invariant (td <- _GetThreadData self ;; f td).
Proof.
  intros Hf s Hinv. unfold bind. rewrite GetThreadData_run.
  destruct (Hf (fst (my_slot self s)) (with_slot self s))
    as (r & s' & Hrun & Hinv' & _).
  - apply invariant_with_slot, Hinv.
  - eapply lookup_lt_Some, (proj1 (my_slot_lookup self s)).
  - eauto.
Qed.

Lemma gated_if {A} (m : M A) (a : A) :
  returns_with_invariant m ->
  returns_with_invariant (en <- IsEnabled ;; if (en : bool) then m else ret a).
Proof.
  intros Hm s Hinv. unfold bind. rewrite IsEnabled_run.
  destruct (Z.eqb _ 1); [apply Hm; exact Hinv|].
  eexists _, _. split; [reflexivity | exact Hinv].
Qed.

Lemma gated_unless {A} (m : M A) (a : A) :
  returns_with_invariant m ->
  returns_with_invariant (en <- IsEnabled ;; if negb en then ret a else m).
Proof.
  intros Hm s Hinv. unfold bind. rewrite IsEnabled_run.
  destruct (Z.eqb _ 1); [apply Hm; exact Hinv|].
  eexists _, _. split; [reflexivity | exact Hinv].
Qed.

(** From a state between two operations, every record operation that
    compiles returns, whatever the gate, and so does the harvest; the state
    they leave is again one between two operations. *)
Theorem recording_api_returns (self : TraceThreadId) (sizeof_uintptr_t : nat) :
  (forall key cat, returns_with_invariant (BeginEvent self key cat))
  /\ (forall key cat, returns_with_invariant (EndEvent self key cat))
  /\ (forall key cat, returns_with_invariant (BeginScope self key cat))
  /\ (forall key cat, returns_with_invariant (EndScope self key cat))
  /\ (forall key start cat, returns_with_invariant (Scope self key start cat))
  /\ (forall key value cat m,
         StoreData self sizeof_uintptr_t key value cat = Accepted m ->
         returns_with_invariant m)
  /\ (forall cat args m,
         ScopeArgs self sizeof_uintptr_t cat args = Accepted m ->
         returns_with_invariant m)
  /\ (forall key cat args m,
         BeginScope_args self sizeof_uintptr_t key cat args = Accepted m ->
         returns_with_invariant m)
  /\ (forall key x cat, returns_with_invariant (RecordCounterDelta self key x cat))
  /\ (forall key x cat, returns_with_invariant (RecordCounterValue self key x cat))
  /\ (forall key x cat,
         returns_with_invariant (RecordCounterDelta_Key self key x cat))
  /\ (forall key x cat,
         returns_with_invariant (RecordCounterValue_Key self key x cat))
  /\ returns_with_invariant CreateCollection.
Proof.
  repeat apply conj; intros.
  - apply gated_unless, with_thread_data. intros td.
    apply total_on_append. intros s d l Hd Hl.
    rewrite (BeginEvent_run _ _ _ _ _ _ Hd Hl). eauto.
  - apply gated_unless, with_thread_data. intros td.
    apply total_on_append. intros s d l Hd Hl.
    rewrite (EndEvent_run _ _ _ _ _ _ Hd Hl). eauto.
  - apply gated_unless, with_thread_data. intros td.
    apply total_on_append. intros s d l Hd Hl.
    rewrite (BeginScope_run _ _ _ _ _ _ Hd Hl). eauto.
  - apply gated_unless, with_thread_data. intros td.
    apply total_on_append. intros s d l Hd Hl.
    rewrite (EndScope_run _ _ _ _ _ _ Hd Hl). eauto.
  - apply gated_unless, with_thread_data. intros td.
    apply total_on_EmplaceEvent.
  - unfold StoreData in H.
    destruct (_StoreData sizeof_uintptr_t value) as [store|] eqn:Hst;
      [|discriminate H].
    injection H as <-. apply gated_if, with_thread_data. intros td.
    apply (total_on_StoreData _ _ _ Hst).
  - apply static_assert_pairs_Accepted in H.
    destruct (_StoreDataRec sizeof_uintptr_t args) as [store|] eqn:Hst;
      [|discriminate H].
    injection H as <-. apply gated_unless, with_thread_data. intros td.
    apply (total_on_StoreDataRec _ _ _ Hst).
  - apply static_assert_pairs_Accepted in H.
    destruct (_StoreDataRec sizeof_uintptr_t args) as [store|] eqn:Hst;
      [|discriminate H].
    injection H as <-. apply gated_unless, with_thread_data. intros td.
    apply total_on_bind.
    + apply total_on_append. intros s d l Hd Hl.
      rewrite (BeginScope_run _ _ _ _ _ _ Hd Hl). eauto.
    + intros _. apply (total_on_StoreDataRec _ _ _ Hst).
  - apply gated_if, with_thread_data. intros td. apply total_on_EmplaceEvent.
  - apply gated_if, with_thread_data. intros td. apply total_on_EmplaceEvent.
  - apply gated_if, with_thread_data. intros td.
    apply (total_on_EmplaceEvent td (CounterDeltaArgs (DynamicKey key) x cat)).
  - apply gated_if, with_thread_data. intros td.
    apply (total_on_EmplaceEvent td (CounterValueArgs (DynamicKey key) x cat)).
  - intros s [Hwf Hq].
    destruct (CreateCollection_run s Hwf Hq) as (s' & Hrun & _ & _ & Hinv).
    eauto.
Qed.

(** ** Instances on concrete states *)

Lemma wf_initial (enabled : Z) : wf (initial enabled).
Proof. intros td d Hd. destruct td; discriminate Hd. Qed.

Lemma wf_example_state : wf example_state.
Proof.
  intros td d Hd. destruct td as [|[|td]]; try discriminate Hd.
  injection Hd as <-. simpl. constructor.
Qed.

Lemma quiescent_example_state : quiescent example_state.
Proof.
  intros td d Hd. destruct td as [|[|td]]; try discriminate Hd.
  injection Hd as <-. reflexivity.
Qed.

(** Gate off: a begin and an end event, then a harvest; the collection is
    empty and both calls returned 0. *)
Example disabled_then_harvest :
  (t1 <- BeginEvent 7%nat [x61] 0 ;;
   t2 <- EndEvent 7%nat [x61] 0 ;;
   CreateCollection ;;
   s <- get ;;
   ret (t1, t2, notices s, heap s)) (initial 0)
  = Some ((0, 0, [[]], []),
          mkState (mkCollector 0 [] EmptyString) [] 0 [[]]
                  [LoadEnabled mo_acquire 0; LoadEnabled mo_acquire 0]).
Proof. vm_compute. reflexivity. Qed.

(** Gate on: a scope opened and closed at once is one [Timespan] in the
    collection. *)
Example scope_pair_then_harvest :
  (BeginScope 7%nat 5 0 ;; EndScope 7%nat 5 0 ;; CreateCollection ;;
   s <- get ;; ret (notices s)) (initial 1)
  = Some ([[(7%nat,
             mkList [mkEvent Timespan (StaticKey 5) 0 1 (PStart 0)] [])]],
          snd (default (tt, initial 1)
                 ((BeginScope 7%nat 5 0 ;; EndScope 7%nat 5 0 ;;
                   CreateCollection) (initial 1)))).
Proof. vm_compute. reflexivity. Qed.

(** An end with another key is recorded as a loose [End]. *)
Example unmatched_end_is_appended :
  (BeginScope 7%nat 5 0 ;; EndScope 7%nat 6 0 ;;
   s <- get ;; ret (thread_events 7%nat s)) (initial 1)
  = Some ([mkEvent Begin (StaticKey 5) 0 0 PNone;
           mkEvent End (StaticKey 6) 0 1 PNone],
          snd (default (tt, initial 1)
                 ((BeginScope 7%nat 5 0 ;; EndScope 7%nat 6 0) (initial 1)))).
Proof. vm_compute. reflexivity. Qed.

(** Two threads: each gets its own slot and list, and the harvest hands out
    both lists in the order of registration. *)
Example two_threads_then_harvest :
  (RecordCounterDelta 2%nat 5 10 0 ;; RecordCounterValue 1%nat 5 20 0 ;;
   RecordCounterDelta 2%nat 5 30 0 ;; CreateCollection ;;
   s <- get ;; ret (notices s)) (initial 1)
  = Some ([[(2%nat,
             mkList [mkEvent CounterDelta (StaticKey 5) 0 0 (PDouble 10);
                     mkEvent CounterDelta (StaticKey 5) 0 2 (PDouble 30)] []);
            (1%nat,
             mkList [mkEvent CounterValue (StaticKey 5) 0 1 (PDouble 20)] [])]],
          snd (default (tt, initial 1)
                 ((RecordCounterDelta 2%nat 5 10 0 ;;
                   RecordCounterValue 1%nat 5 20 0 ;;
                   RecordCounterDelta 2%nat 5 30 0 ;;
                   CreateCollection) (initial 1)))).
Proof. vm_compute. reflexivity. Qed.

(** A batch of two pairs: an [int] goes into its event, a string into the
    arena. *)
Example batch_of_two_pairs :
  match ScopeArgs 7%nat 8%nat 0
          [PKey 1; PValue (Object false [x2a; x00; x00; x00]);
           PKey 2; PValue (StdString [x68; x69])] with
  | Accepted m =>
      (m ;; s <- get ;; ret (thread_list 7%nat s)) (initial 1)
  | Rejected _ => None
  end
  = Some (mkList [mkEvent Data (StaticKey 1) 0 0
                          (PInline [x2a; x00; x00; x00]);
                  mkEvent Data (StaticKey 2) 0 1 (PArena 0)]
                 [[x68; x69; x00]],
          snd (default (tt, initial 1)
                 (match ScopeArgs 7%nat 8%nat 0
                          [PKey 1; PValue (Object false [x2a; x00; x00; x00]);
                           PKey 2; PValue (StdString [x68; x69])] with
                  | Accepted m => m (initial 1)
                  | Rejected _ => None
                  end))).
Proof. vm_compute. reflexivity. Qed.

(** A pointer that is not a string has no overload of [_StoreData]. *)
Example other_pointer_has_no_overload :
  StoreData 7%nat 8%nat 1
            (Object true [x00; x00; x00; x00; x00; x00; x00; x00]) 0
  = Rejected no_overload_message.
Proof. reflexivity. Qed.

Lemma CreateCollection_publishes_collection_witness :
  wf example_state /\ quiescent example_state
  /\ exists s',
      CreateCollection example_state = Some (tt, s')
      /\ notices s' = notices example_state ++ [pending example_state].
Proof.
  split; [exact wf_example_state|]. split; [exact quiescent_example_state|].
  destruct (CreateCollection_publishes_collection
              example_state wf_example_state quiescent_example_state)
    as (s' & Hrun & Hnot & _).
  exists s'. split; [exact Hrun | exact Hnot].
Defined.

Lemma disabled_record_operations_do_nothing_witness :
  _isEnabled (collector (initial 0)) <> 1
  /\ exists s',
      BeginEvent 7%nat [x61] 0 (initial 0) = Some (0, s')
      /\ only_gate_read (initial 0) s'.
Proof.
  assert (_isEnabled (collector (initial 0)) <> 1) as Hoff by discriminate.
  split; [exact Hoff|].
  exact (proj1 (disabled_record_operations_do_nothing 7%nat 8%nat (initial 0)
                  Hoff) [x61] 0).
Defined.

Lemma StoreData_string_read_back_witness :
  wf (initial 1) /\ _isEnabled (collector (initial 1)) = 1
  /\ exists m s' ptr,
      StoreData 7%nat 8%nat 5 (StdString [x68; x69]) 0 = Accepted m
      /\ m (initial 1) = Some (tt, s')
      /\ EventList_ReadString (thread_list 7%nat s') ptr = Some [x68; x69].
Proof.
  split; [exact (wf_initial 1)|]. split; [reflexivity|].
  destruct (StoreData_string_read_back 7%nat 8%nat 5 0 [x68; x69] (initial 1)
              (wf_initial 1) eq_refl)
    as (m & s' & ptr & Hacc & Hrun & _ & Hgrow & _).
  exists m, s', ptr. split; [exact Hacc|]. split; [exact Hrun|].
  exact (proj2 (Hgrow _ (grows_refl _))).
Defined.

Lemma begin_end_scope_fuse_into_timespan_witness :
  slots example_state !! 0%nat = Some (mkThreadData false 0 7)
  /\ exists s' l',
      (PerThreadData.BeginScope 0 9 0 ;; PerThreadData.EndScope 0 9 0)
        example_state = Some (tt, s')
      /\ heap s' !! 0%nat = Some l'
      /\ events l'
         = [mkEvent Begin (StaticKey 5) 0 0 PNone;
            mkEvent Timespan (StaticKey 9) 0 2 (PStart 1)].
Proof.
  split; [reflexivity|].
  exact (proj2 (proj2 (begin_end_scope_fuse_into_timespan
                         0%nat 9 0 example_state (mkThreadData false 0 7)
                         (mkList [mkEvent Begin (StaticKey 5) 0 0 PNone] [])
                         eq_refl eq_refl))).
Defined.

Lemma StoreData_inline_or_arena_witness :
  wf (initial 1) /\ _isEnabled (collector (initial 1)) = 1
  /\ (length [x01; x00; x00; x00] <= 8)%nat
  /\ exists m s',
      StoreData 7%nat 8%nat 5 (Object false [x01; x00; x00; x00]) 0
      = Accepted m
      /\ m (initial 1) = Some (tt, s')
      /\ stored_inline 7%nat 5 0 [x01; x00; x00; x00] (initial 1) s'.
Proof.
  assert (length [x01; x00; x00; x00] <= 8)%nat as Hsmall
      by (apply Nat.leb_le; reflexivity).
  split; [exact (wf_initial 1)|]. split; [reflexivity|].
  split; [exact Hsmall|].
  exact (proj1 (StoreData_inline_or_arena 7%nat 8%nat 5 0 (initial 1)
                  (wf_initial 1) eq_refl) [x01; x00; x00; x00] Hsmall).
Defined.

Lemma counter_events_carry_value_witness :
  wf (initial 1) /\ _isEnabled (collector (initial 1)) = 1
  /\ exists s',
      RecordCounterDelta 7%nat 5 4609434218613702656 0 (initial 1)
      = Some (tt, s')
      /\ thread_events 7%nat s'
         = [mkEvent CounterDelta (StaticKey 5) 0 0
                    (PDouble 4609434218613702656)].
Proof.
  split; [exact (wf_initial 1)|]. split; [reflexivity|].
  exact (proj1 (counter_events_carry_value 7%nat 5 4609434218613702656 0
                  (initial 1) (wf_initial 1) eq_refl)).
Defined.

Lemma odd_argument_pack_rejected_witness :
  Nat.odd (length [PKey 5; PValue (CString [x68; x00]); PKey 6]) = true
  /\ ScopeArgs 7%nat 8%nat 0 [PKey 5; PValue (CString [x68; x00]); PKey 6]
     = Rejected pairs_message.
Proof.
  split; [reflexivity|].
  exact (proj1 (odd_argument_pack_rejected
                  7%nat 8%nat 5 0
                  [PKey 5; PValue (CString [x68; x00]); PKey 6] eq_refl)).
Defined.

Lemma ScopeArgs_no_pairs_appends_nothing_witness :
  _isEnabled (collector (initial 1)) = 1
  /\ exists m s',
      ScopeArgs 7%nat 8%nat 0 [] = Accepted m
      /\ m (initial 1) = Some (tt, s')
      /\ slots s' = [mkThreadData false 0 7]
      /\ heap s' = [EventList_new].
Proof.
  split; [reflexivity|].
  destruct (ScopeArgs_no_pairs_appends_nothing 7%nat 8%nat 0 (initial 1)
              eq_refl)
    as (m & s' & Hacc & Hrun & _ & _ & _ & _ & Hnew & _).
  exists m, s'. split; [exact Hacc|]. split; [exact Hrun|].
  exact (Hnew eq_refl).
Defined.

(** ** Sequences of appends on one slot *)

Lemma gate_loads_app (tr1 tr2 : list Action) :
  gate_loads (tr1 ++ tr2) = (gate_loads tr1 + gate_loads tr2)%nat.
Proof.
  induction tr1 as [|a tr1 IH]; [reflexivity|].
  destruct a; simpl; rewrite IH; reflexivity.
Qed.

Lemma set_slots_same (c : TraceCollector) :
  set_slots (_allPerThreadData c) c = c.
Proof. destruct c. reflexivity. Qed.

Lemma slot_leaves_appended (td : nat)
      (F : TimeStamp -> EventList -> EventList) (k : Z) (m : M unit) :
  (forall s d l,
      slots s !! td = Some d -> heap s !! _events d = Some l ->
      exists body,
        m s = Some (tt, appended td d (F (clock s) l) k body s)
        /\ gate_loads body = 0%nat) ->
  slot_leaves td F k m.
Proof.
  intros Hm s d l Hd Hw Hl.
  destruct (Hm s d l Hd Hl) as (body & Hrun & Hbody).
  eexists. split; [exact Hrun|].
  unfold appended. simpl. repeat split.
  - destruct d as [w p t]. simpl in *. subst w.
    rewrite list_insert_id by exact Hd. apply set_slots_same.
  - rewrite gate_loads_app. simpl. rewrite gate_loads_app, Hbody.
    simpl. lia.
Qed.

Lemma slot_leaves_ret (td : nat) :
  slot_leaves td (fun _ l => l) 0 (ret tt).
Proof.
  intros s d l Hd Hw Hl. exists s. repeat split.
  - symmetry. apply list_insert_id, Hl.
  - lia.
Qed.

Lemma slot_leaves_bind (td : nat)
      (F1 F2 : TimeStamp -> EventList -> EventList) (k1 k2 : Z)
      (m1 m2 : M unit) :
  slot_leaves td F1 k1 m1 -> slot_leaves td F2 k2 m2 ->
  slot_leaves td (fun now l => F2 (now + k1) (F1 now l)) (k1 + k2)
              (m1 ;; m2).
Proof.
  intros H1 H2 s d l Hd Hw Hl.
  destruct (H1 s d l Hd Hw Hl) as (s1 & Hrun1 & Hc1 & Hh1 & Hk1 & Hn1 & Hg1).
  destruct (H2 s1 d (F1 (clock s) l)) as (s2 & Hrun2 & Hc2 & Hh2 & Hk2 & Hn2 & Hg2).
  { unfold slots. rewrite Hc1. exact Hd. }
  { exact Hw. }
  { rewrite Hh1. apply list_lookup_insert_eq. eapply lookup_lt_Some, Hl. }
  exists s2. unfold bind. rewrite Hrun1. split; [exact Hrun2|].
  rewrite Hc2, Hh2, Hk2, Hn2, Hg2, Hc1, Hh1, Hk1, Hn1, Hg1.
  rewrite list_insert_insert_eq. repeat split. lia.
Qed.

Lemma slot_leaves_ext (td : nat)
      (F F' : TimeStamp -> EventList -> EventList) (k k' : Z) (m : M unit) :
  (forall now l, F now l = F' now l) -> k = k' ->
  slot_leaves td F k m -> slot_leaves td F' k' m.
Proof.
  intros HF <- Hm s d l Hd Hw Hl.
  destruct (Hm s d l Hd Hw Hl) as (s' & Hrun & Hc & Hh & Hrest).
  exists s'. rewrite <- HF. auto.
Qed.

Lemma slot_leaves_EmplaceEvent (td : nat) (args : CtorArgs) :
  slot_leaves td (fun now l => EventList_EmplaceBack (event_of args now) l) 1
              (PerThreadData.EmplaceEvent td args).
Proof.
  apply slot_leaves_appended. intros s d l Hd Hl.
  rewrite (EmplaceEvent_run _ _ _ _ _ Hd Hl). eauto.
Qed.

Lemma slot_leaves_BeginScope (td : nat) (key : TraceKey)
      (cat : TraceCategoryId) :
  slot_leaves td
    (fun now l =>
       EventList_EmplaceBack (mkEvent Begin (StaticKey key) cat now PNone) l)
    1 (PerThreadData.BeginScope td key cat).
Proof.
  apply slot_leaves_appended. intros s d l Hd Hl.
  rewrite (BeginScope_run _ _ _ _ _ _ Hd Hl). eauto.
Qed.

Lemma slot_leaves_StoreData (sizeof_uintptr_t : nat) (value : DataValue)
      (store : nat -> TraceKey -> TraceCategoryId -> M unit) :
  _StoreData sizeof_uintptr_t value = Accepted store ->
  forall td key cat,
    slot_leaves td
      (fun now l => data_stored sizeof_uintptr_t key cat now value l) 1
      (store td key cat).
Proof.
  intros Hacc td key cat. apply slot_leaves_appended. intros s d l Hd Hl.
  unfold data_stored, large_stored.
  destruct value as [[|] repr|buf|str|arr]; simpl in Hacc;
    try discriminate Hacc.
  - destruct (length repr <=? sizeof_uintptr_t)%nat;
      injection Hacc as <-.
    + rewrite (StoreData_run _ _ _ _ _ _ _ Hd Hl). eauto.
    + rewrite (StoreLargeData_run _ _ _ _ _ _ _ Hd Hl). eauto.
  - injection Hacc as <-.
    rewrite (StoreLargeData_run _ _ _ _ _ _ _ Hd Hl). eauto.
  - injection Hacc as <-.
    rewrite (StoreLargeData_run _ _ _ _ _ _ _ Hd Hl). eauto.
  - injection Hacc as <-.
    rewrite (StoreLargeData_run _ _ _ _ _ _ _ Hd Hl). eauto.
Qed.

Lemma slot_leaves_StoreDataRec (sizeof_uintptr_t : nat)
      (args : list PackArg) :
  forall store,
    _StoreDataRec sizeof_uintptr_t args = Accepted store ->
    forall td cat,
      slot_leaves td
        (fun now l => pack_stored sizeof_uintptr_t cat now args l)
        (Z.of_nat (length (pack_pairs args)))
        (store td cat).
Proof.
  induction args as [|a|a b rest IH] using pairs_ind; intros store Hacc td cat.
  - injection Hacc as <-. apply slot_leaves_ret.
  - destruct a; discriminate Hacc.
  - simpl in Hacc. destruct a as [key|]; [|discriminate Hacc].
    destruct b as [|value]; [discriminate Hacc|].
    destruct (_StoreData sizeof_uintptr_t value) as [st|] eqn:Hst;
      destruct (_StoreDataRec sizeof_uintptr_t rest) as [more|];
      try discriminate Hacc.
    injection Hacc as <-.
    eapply slot_leaves_ext;
      [| | apply slot_leaves_bind;
           [apply (slot_leaves_StoreData _ _ _ Hst td key cat)
           | apply (IH more eq_refl td cat)]].
    + intros now l. reflexivity.
    + simpl pack_pairs. simpl length. lia.
Qed.

(** ** Record operations with the gate on *)

Lemma with_slot_log (a : Action) (self : TraceThreadId) (s : State) :
  with_slot self (log a s) = log a (with_slot self s).
Proof.
  unfold with_slot.
  change (thread_slot self (log a s)) with (thread_slot self s).
  destruct (thread_slot self s); reflexivity.
Qed.

(** From the state in which the append starts to the one the caller sees. *)
Lemma leaves_entered (self : TraceThreadId)
      (F : TimeStamp -> EventList -> EventList) (k : Z) (f : nat -> M unit)
      (s : State) :
  (forall td, slot_leaves td F k (f td)) ->
  invariant s -> _isEnabled (collector s) = 1 ->
  exists s',
    (threadData <- _GetThreadData self ;; f threadData)
      (log (LoadEnabled mo_acquire (_isEnabled (collector s))) s)
    = Some (tt, s')
    /\ collector s' = collector (with_slot self s)
    /\ heap s'
       = <[_events (snd (my_slot self s))
           := F (clock s) (thread_list self s)]> (heap (with_slot self s))
    /\ clock s' = clock s + k
    /\ notices s' = notices s
    /\ gate_loads (trace s') = (gate_loads (trace s) + 1)%nat.
Proof.
  intros Hf Hinv Hon.
  set (s1 := log (LoadEnabled mo_acquire (_isEnabled (collector s))) s).
  assert (invariant s1) as Hinv1 by exact Hinv.
  destruct (my_slot_list self s1 (proj1 Hinv1)) as (l & Hl & Hlist).
  destruct (my_slot_lookup self s1) as [Hd _].
  pose proof (proj2 (invariant_with_slot self s1 Hinv1) _ _ Hd) as Hw.
  destruct (Hf _ _ _ _ Hd Hw Hl) as (s' & Hrun & Hc & Hh & Hk & Hn & Hg).
  exists s'. unfold bind at 1. rewrite GetThreadData_run. split; [exact Hrun|].
  rewrite Hc, Hh, Hk, Hn, Hg, Hlist.
  unfold s1. rewrite with_slot_log.
  change (my_slot self (log (LoadEnabled mo_acquire (_isEnabled (collector s)))
                            s)) with (my_slot self s).
  change (thread_list self
            (log (LoadEnabled mo_acquire (_isEnabled (collector s))) s))
    with (thread_list self s).
  unfold log. cbn [collector heap clock notices trace].
  rewrite with_slot_clock, with_slot_trace, gate_loads_app.
  repeat split.
  unfold with_slot. destruct (thread_slot self s); reflexivity.
Qed.

Lemma leaves_gated_if (self : TraceThreadId)
      (F : TimeStamp -> EventList -> EventList) (k : Z) (f : nat -> M unit) :
  (forall td, slot_leaves td F k (f td)) ->
  leaves self F k 1
    (en <- IsEnabled ;;
     if (en : bool) then threadData <- _GetThreadData self ;; f threadData
     else ret tt).
Proof.
  intros Hf s Hinv Hon.
  unfold bind at 1. rewrite IsEnabled_run, (proj2 (Z.eqb_eq _ 1) Hon).
  apply leaves_entered; assumption.
Qed.

Lemma leaves_gated_unless (self : TraceThreadId)
      (F : TimeStamp -> EventList -> EventList) (k : Z) (f : nat -> M unit) :
  (forall td, slot_leaves td F k (f td)) ->
  leaves self F k 1
    (en <- IsEnabled ;;
     if negb en then ret tt
     else threadData <- _GetThreadData self ;; f threadData).
Proof.
  intros Hf s Hinv Hon.
  unfold bind at 1. rewrite IsEnabled_run, (proj2 (Z.eqb_eq _ 1) Hon).
  apply leaves_entered; assumption.
Qed.

Lemma skipped_gated_if (m : M unit) :
  skipped (en <- IsEnabled ;; if (en : bool) then m else ret tt).
Proof.
  intros s Hoff. unfold bind. rewrite IsEnabled_run.
  rewrite (proj2 (Z.eqb_neq _ _) Hoff). reflexivity.
Qed.

Lemma skipped_gated_unless (m : M unit) :
  skipped (en <- IsEnabled ;; if negb en then ret tt else m).
Proof.
  intros s Hoff. unfold bind. rewrite IsEnabled_run.
  rewrite (proj2 (Z.eqb_neq _ _) Hoff). reflexivity.
Qed.

Lemma with_slot_isEnabled (self : TraceThreadId) (s : State) :
  _isEnabled (collector (with_slot self s)) = _isEnabled (collector s).
Proof. unfold with_slot. destruct (thread_slot self s); reflexivity. Qed.

(** The state an enabled record operation of [self] leaves. *)
Lemma after_leaves (self : TraceThreadId) (s s' : State) (L : EventList) :
  invariant s ->
  collector s' = collector (with_slot self s) ->
  heap s' = <[_events (snd (my_slot self s)) := L]> (heap (with_slot self s)) ->
  invariant s'
  /\ thread_slot self s' = Some (my_slot self s)
  /\ thread_list self s' = L
  /\ with_slot self s' = s'
  /\ my_slot self s' = my_slot self s
  /\ _isEnabled (collector s') = _isEnabled (collector s).
Proof.
  intros Hinv Hc Hh.
  pose proof (invariant_with_slot self s Hinv) as [Hwf0 Hq0].
  assert (slots s' = slots (with_slot self s)) as Hslots
      by (unfold slots; rewrite Hc; reflexivity).
  assert (thread_slot self s' = Some (my_slot self s)) as Hfind.
  { unfold thread_slot. rewrite Hslots. apply my_slot_found. }
  destruct (my_slot_list self s (proj1 Hinv)) as (l & Hl & _).
  repeat split.
  - intros td d Hd. rewrite Hslots in Hd. rewrite Hh, length_insert.
    eapply Hwf0, Hd.
  - intros td d Hd. rewrite Hslots in Hd. eapply Hq0, Hd.
  - exact Hfind.
  - unfold thread_list. rewrite Hfind. destruct (my_slot self s) as [td d].
    simpl in *. rewrite Hh.
    rewrite list_lookup_insert_eq by (eapply lookup_lt_Some, Hl). reflexivity.
  - unfold with_slot. rewrite Hfind. reflexivity.
  - unfold my_slot at 1. rewrite Hfind. reflexivity.
  - rewrite Hc. apply with_slot_isEnabled.
Qed.

Lemma leaves_seq (self : TraceThreadId)
      (F1 F2 : TimeStamp -> EventList -> EventList) (k1 k2 : Z) (g1 g2 : nat)
      (m1 m2 : M unit) :
  leaves self F1 k1 g1 m1 -> leaves self F2 k2 g2 m2 ->
  leaves self (fun now l => F2 (now + k1) (F1 now l)) (k1 + k2) (g1 + g2)
         (m1 ;; m2).
Proof.
  intros H1 H2 s Hinv Hon.
  destruct (H1 s Hinv Hon) as (s1 & Hrun1 & Hc1 & Hh1 & Hk1 & Hn1 & Hg1).
  destruct (after_leaves self s s1 _ Hinv Hc1 Hh1)
    as (Hinv1 & _ & Hlist1 & Hwith1 & Hmy1 & Hen1).
  destruct (H2 s1 Hinv1) as (s2 & Hrun2 & Hc2 & Hh2 & Hk2 & Hn2 & Hg2);
    [congruence|].
  exists s2. unfold bind. rewrite Hrun1. split; [exact Hrun2|].
  rewrite Hc2, Hh2, Hk2, Hn2, Hg2, Hwith1, Hmy1, Hlist1, Hc1, Hh1, Hk1, Hn1, Hg1.
  rewrite list_insert_insert_eq. repeat split; lia.
Qed.

Lemma leaves_ext (self : TraceThreadId)
      (F F' : TimeStamp -> EventList -> EventList) (k k' : Z) (g g' : nat)
      (m : M unit) :
  (forall now l, F now l = F' now l) -> k = k' -> g = g' ->
  leaves self F k g m -> leaves self F' k' g' m.
Proof.
  intros HF <- <- Hm s Hinv Hon.
  destruct (Hm s Hinv Hon) as (s' & Hrun & Hc & Hh & Hrest).
  exists s'. rewrite <- HF. auto.
Qed.

(** Two operations that leave the same list in the same time leave the same
    state, whatever they logged. *)
Lemma leaves_same_state (self : TraceThreadId)
      (F : TimeStamp -> EventList -> EventList) (k : Z) (g1 g2 : nat)
      (m1 m2 : M unit) (s : State) :
  leaves self F k g1 m1 -> leaves self F k g2 m2 ->
  invariant s -> _isEnabled (collector s) = 1 ->
  exists s1 s2,
    m1 s = Some (tt, s1) /\ m2 s = Some (tt, s2)
    /\ same_state s1 s2
    /\ gate_loads (trace s1) = (gate_loads (trace s) + g1)%nat
    /\ gate_loads (trace s2) = (gate_loads (trace s) + g2)%nat.
Proof.
  intros H1 H2 Hinv Hon.
  destruct (H1 s Hinv Hon) as (s1 & Hrun1 & Hc1 & Hh1 & Hk1 & Hn1 & Hg1).
  destruct (H2 s Hinv Hon) as (s2 & Hrun2 & Hc2 & Hh2 & Hk2 & Hn2 & Hg2).
  exists s1, s2. unfold same_state.
  rewrite Hc1, Hc2, Hh1, Hh2, Hk1, Hk2, Hn1, Hn2. auto 10.
Qed.

Lemma leaves_BeginScope (self : TraceThreadId) (key : TraceKey)
      (cat : TraceCategoryId) :
  leaves self
    (fun now l =>
       EventList_EmplaceBack (mkEvent Begin (StaticKey key) cat now PNone) l)
    1 1 (BeginScope self key cat).
Proof.
  apply (leaves_gated_unless self _ 1
           (fun td => PerThreadData.BeginScope td key cat)).
  intros td. apply slot_leaves_BeginScope.
Qed.

Lemma leaves_Scope (self : TraceThreadId) (key : TraceKey)
      (start : TimeStamp) (cat : TraceCategoryId) :
  leaves self
    (fun now l =>
       EventList_EmplaceBack
         (mkEvent Timespan (StaticKey key) cat now (PStart start)) l)
    1 1 (Scope self key start cat).
Proof.
  apply (leaves_gated_unless self _ 1
           (fun td => PerThreadData.EmplaceEvent td
                        (TimespanArgs (StaticKey key) start cat))).
  intros td.
  apply (slot_leaves_EmplaceEvent td (TimespanArgs (StaticKey key) start cat)).
Qed.

Lemma leaves_RecordCounterDelta (self : TraceThreadId) (key : TraceKey)
      (x : double) (cat : TraceCategoryId) :
  leaves self
    (fun now l =>
       EventList_EmplaceBack
         (mkEvent CounterDelta (StaticKey key) cat now (PDouble x)) l)
    1 1 (RecordCounterDelta self key x cat).
Proof.
  apply (leaves_gated_if self _ 1
           (fun td => PerThreadData.EmplaceEvent td
                        (CounterDeltaArgs (StaticKey key) x cat))).
  intros td.
  apply (slot_leaves_EmplaceEvent td (CounterDeltaArgs (StaticKey key) x cat)).
Qed.

Lemma leaves_RecordCounterValue (self : TraceThreadId) (key : TraceKey)
      (x : double) (cat : TraceCategoryId) :
  leaves self
    (fun now l =>
       EventList_EmplaceBack
         (mkEvent CounterValue (StaticKey key) cat now (PDouble x)) l)
    1 1 (RecordCounterValue self key x cat).
Proof.
  apply (leaves_gated_if self _ 1
           (fun td => PerThreadData.EmplaceEvent td
                        (CounterValueArgs (StaticKey key) x cat))).
  intros td.
  apply (slot_leaves_EmplaceEvent td (CounterValueArgs (StaticKey key) x cat)).
Qed.

Lemma leaves_StoreData (self : TraceThreadId) (sizeof_uintptr_t : nat)
      (key : TraceKey) (value : DataValue) (cat : TraceCategoryId)
      (m : M unit) :
  StoreData self sizeof_uintptr_t key value cat = Accepted m ->
  leaves self
    (fun now l => data_stored sizeof_uintptr_t key cat now value l) 1 1 m.
Proof.
  unfold StoreData. intros Hacc.
  destruct (_StoreData sizeof_uintptr_t value) as [store|] eqn:Hst;
    [|discriminate Hacc].
  injection Hacc as <-.
  apply (leaves_gated_if self _ 1 (fun td => store td key cat)).
  intros td. apply (slot_leaves_StoreData _ _ _ Hst).
Qed.

Lemma leaves_ScopeArgs (self : TraceThreadId) (sizeof_uintptr_t : nat)
      (cat : TraceCategoryId) (args : list PackArg) (m : M unit) :
  ScopeArgs self sizeof_uintptr_t cat args = Accepted m ->
  leaves self
    (fun now l => pack_stored sizeof_uintptr_t cat now args l)
    (Z.of_nat (length (pack_pairs args))) 1 m.
Proof.
  intros Hacc. apply static_assert_pairs_Accepted in Hacc.
  destruct (_StoreDataRec sizeof_uintptr_t args) as [store|] eqn:Hst;
    [|discriminate Hacc].
  injection Hacc as <-.
  apply (leaves_gated_unless self _ _ (fun td => store td cat)).
  intros td. apply (slot_leaves_StoreDataRec _ _ _ Hst).
Qed.

Lemma leaves_BeginScope_args (self : TraceThreadId) (sizeof_uintptr_t : nat)
      (key : TraceKey) (cat : TraceCategoryId) (args : list PackArg)
      (m : M unit) :
  BeginScope_args self sizeof_uintptr_t key cat args = Accepted m ->
  leaves self
    (fun now l =>
       pack_stored sizeof_uintptr_t cat (now + 1) args
         (EventList_EmplaceBack
            (mkEvent Begin (StaticKey key) cat now PNone) l))
    (1 + Z.of_nat (length (pack_pairs args))) 1 m.
Proof.
  intros Hacc. apply static_assert_pairs_Accepted in Hacc.
  destruct (_StoreDataRec sizeof_uintptr_t args) as [store|] eqn:Hst;
    [|discriminate Hacc].
  injection Hacc as <-.
  apply (leaves_gated_unless self _ _
           (fun td => PerThreadData.BeginScope td key cat ;; store td cat)).
  intros td.
  apply (slot_leaves_bind td _ _ _ _ _ _ (slot_leaves_BeginScope td key cat)
           (slot_leaves_StoreDataRec _ _ _ Hst td cat)).
Qed.

(** ** What a batch leaves in the list *)

Lemma c_str_read_terminated (buf : list byte) :
  c_str_read (c_str_read buf ++ [x00]) = c_str_read buf.
Proof.
  induction buf as [|c buf IH]; [reflexivity|].
  simpl. destruct (byte_eqb c x00) eqn:Hc; [reflexivity|].
  simpl. rewrite Hc, IH. reflexivity.
Qed.

Lemma holds_value_mono (sizeof_uintptr_t : nat) (l l' : EventList)
      (more : list (list byte)) (kv : TraceKey * DataValue) (e : TraceEvent) :
  arena l' = arena l ++ more ->
  holds_value sizeof_uintptr_t l kv e ->
  holds_value sizeof_uintptr_t l' kv e.
Proof.
  intros Har (Hty & Hkey & Hval). split; [exact Hty|]. split; [exact Hkey|].
  unfold EventList_ReadString in *. rewrite Har.
  destruct (snd kv) as [ptr repr|buf|str|arr].
  - destruct (length repr <=? sizeof_uintptr_t)%nat; [exact Hval|].
    destruct Hval as (p & Hp & Hb). exists p. split; [exact Hp|].
    apply lookup_app_l_Some, Hb.
  - destruct Hval as (p & Hp & Hb). exists p. split; [exact Hp|].
    destruct (arena l !! p) as [b|] eqn:Hlook; [|discriminate Hb].
    rewrite (lookup_app_l_Some _ _ _ _ Hlook). exact Hb.
  - destruct Hval as (p & Hp & Hb). exists p. split; [exact Hp|].
    destruct (arena l !! p) as [b|] eqn:Hlook; [|discriminate Hb].
    rewrite (lookup_app_l_Some _ _ _ _ Hlook). exact Hb.
  - destruct Hval as (p & Hp & Hb). exists p. split; [exact Hp|].
    destruct (arena l !! p) as [b|] eqn:Hlook; [|discriminate Hb].
    rewrite (lookup_app_l_Some _ _ _ _ Hlook). exact Hb.
Qed.

Lemma large_stored_spec (key : TraceKey) (cat : TraceCategoryId)
      (now : TimeStamp) (data : LargeData) (l : EventList) :
  events (large_stored key cat now data l)
  = events l
    ++ [mkEvent Data (StaticKey key) cat now (PArena (length (arena l)))]
  /\ arena (large_stored key cat now data l) = arena l ++ [block_of data]
  /\ arena (large_stored key cat now data l) !! length (arena l)
     = Some (block_of data).
Proof.
  unfold large_stored. simpl. repeat split.
  rewrite lookup_app_r by lia. rewrite Nat.sub_diag. reflexivity.
Qed.

(** One stored value: one [Data] event at the back, which holds it. *)
Lemma data_stored_spec (sizeof_uintptr_t : nat) (key : TraceKey)
      (cat : TraceCategoryId) (now : TimeStamp) (value : DataValue)
      (l : EventList) :
  exists e more,
    events (data_stored sizeof_uintptr_t key cat now value l) = events l ++ [e]
    /\ arena (data_stored sizeof_uintptr_t key cat now value l)
       = arena l ++ more
    /\ holds_value sizeof_uintptr_t
         (data_stored sizeof_uintptr_t key cat now value l) (key, value) e
    /\ ev_category e = cat
    /\ (forall p, ev_payload e = PArena p ->
                  (p < length (arena l ++ more))%nat).
Proof.
  assert (forall data,
             exists e more,
               events (large_stored key cat now data l) = events l ++ [e]
               /\ arena (large_stored key cat now data l) = arena l ++ more
               /\ (ev_type e = Data /\ ev_key e = StaticKey key
                   /\ exists p, ev_payload e = PArena p
                        /\ arena (large_stored key cat now data l) !! p
                           = Some (block_of data))
               /\ ev_category e = cat
               /\ (forall p, ev_payload e = PArena p ->
                             (p < length (arena l ++ more))%nat)) as Hlarge.
  { intros data. destruct (large_stored_spec key cat now data l)
      as (Hev & Har & Hlook).
    eexists _, _. split; [exact Hev|]. split; [exact Har|].
    split; [|split; [reflexivity|]].
    - repeat split. eexists. split; [reflexivity | exact Hlook].
    - intros p [= <-]. rewrite length_app. simpl. lia. }
  unfold data_stored, holds_value. simpl fst. simpl snd.
  destruct value as [ptr repr|buf|str|arr].
  - destruct (length repr <=? sizeof_uintptr_t)%nat.
    + eexists _, []. simpl. rewrite app_nil_r. repeat split.
      intros p Hp. discriminate Hp.
    + destruct (Hlarge (Blob repr)) as (e & more & H1 & H2 & H3 & H4 & H5).
      exists e, more. tauto.
  - destruct (Hlarge (CStr buf))
      as (e & more & H1 & H2 & (Hty & Hkey & p & Hp & Hb) & H4 & H5).
    exists e, more. repeat split; try assumption.
    exists p. split; [exact Hp|]. unfold EventList_ReadString.
    rewrite Hb. simpl. rewrite c_str_read_terminated. reflexivity.
  - destruct (Hlarge (CStr (c_str str)))
      as (e & more & H1 & H2 & (Hty & Hkey & p & Hp & Hb) & H4 & H5).
    exists e, more. repeat split; try assumption.
    exists p. split; [exact Hp|]. unfold EventList_ReadString.
    rewrite Hb. simpl. rewrite c_str_read_c_str. reflexivity.
  - destruct (Hlarge (CStr arr))
      as (e & more & H1 & H2 & (Hty & Hkey & p & Hp & Hb) & H4 & H5).
    exists e, more. repeat split; try assumption.
    exists p. split; [exact Hp|]. unfold EventList_ReadString.
    rewrite Hb. simpl. rewrite c_str_read_terminated. reflexivity.
Qed.

(** A stored pack: one [Data] event per pair at the back, in the order of
    the pairs, each holding its value in the final list. *)
Lemma pack_stored_spec (sizeof_uintptr_t : nat) (cat : TraceCategoryId)
      (args : list PackArg) :
  forall now l,
    exists new more,
      events (pack_stored sizeof_uintptr_t cat now args l) = events l ++ new
      /\ arena (pack_stored sizeof_uintptr_t cat now args l) = arena l ++ more
      /\ Forall2 (holds_value sizeof_uintptr_t
                    (pack_stored sizeof_uintptr_t cat now args l))
                 (pack_pairs args) new
      /\ Forall (fun e => ev_category e = cat) new
      /\ (forall e p, In e new -> ev_payload e = PArena p ->
                      (p < length (arena l ++ more))%nat).
Proof.
  assert (forall (now : TimeStamp) l,
             exists new more,
               events l = events l ++ new /\ arena l = arena l ++ more
               /\ Forall2 (holds_value sizeof_uintptr_t l) [] new
               /\ Forall (fun e => ev_category e = cat) new
               /\ (forall e p, In e new -> ev_payload e = PArena p ->
                               (p < length (arena l ++ more))%nat)) as Hnone.
  { intros now l. exists [], []. rewrite !app_nil_r.
    repeat split; try constructor. intros e p []. }
  induction args as [|a|a b rest IH] using pairs_ind; intros now l.
  - apply (Hnone now).
  - destruct a; apply (Hnone now).
  - destruct a as [key|]; [|apply (Hnone now)].
    destruct b as [|value]; [apply (Hnone now)|].
    simpl pack_stored. simpl pack_pairs.
    destruct (data_stored_spec sizeof_uintptr_t key cat now value l)
      as (e & more1 & Hev1 & Har1 & Hholds & Hcat & Hptr).
    destruct (IH (now + 1)
                 (data_stored sizeof_uintptr_t key cat now value l))
      as (new & more & Hev & Har & Hall & Hcats & Hptrs).
    exists (e :: new), (more1 ++ more).
    rewrite Hev, Hev1, Har, Har1, <- !app_assoc. repeat split.
    + constructor; [|exact Hall].
      eapply holds_value_mono; [exact Har | exact Hholds].
    + constructor; assumption.
    + intros x p [<-|Hin] Hp.
      * apply Hptr in Hp. rewrite !length_app in *. lia.
      * specialize (Hptrs x p Hin Hp). rewrite Har1 in Hptrs.
        rewrite !length_app in *. lia.
Qed.

Lemma extending_emplace (ev : TimeStamp -> TraceEvent) :
  (forall now p, ev_payload (ev now) <> PArena p) ->
  extending (fun now l => EventList_EmplaceBack (ev now) l).
Proof.
  intros Hno now l. exists [ev now], []. simpl. rewrite app_nil_r.
  repeat split. intros e p [<-|[]] Hp. destruct (Hno now p Hp).
Qed.

Lemma extending_data_stored (sizeof_uintptr_t : nat) (key : TraceKey)
      (cat : TraceCategoryId) (value : DataValue) :
  extending (fun now l => data_stored sizeof_uintptr_t key cat now value l).
Proof.
  intros now l.
  destruct (data_stored_spec sizeof_uintptr_t key cat now value l)
    as (e & more & Hev & Har & _ & _ & Hptr).
  exists [e], more. repeat split; try assumption.
  intros x p [<-|[]]. apply Hptr.
Qed.

Lemma extending_pack_stored (sizeof_uintptr_t : nat) (cat : TraceCategoryId)
      (args : list PackArg) :
  extending (fun now l => pack_stored sizeof_uintptr_t cat now args l).
Proof.
  intros now l.
  destruct (pack_stored_spec sizeof_uintptr_t cat args now l)
    as (new & more & Hev & Har & _ & _ & Hptr).
  exists new, more. auto.
Qed.

Lemma extending_seq (F1 F2 : TimeStamp -> EventList -> EventList) (k : Z) :
  extending F1 -> extending F2 ->
  extending (fun now l => F2 (now + k) (F1 now l)).
Proof.
  intros H1 H2 now l.
  destruct (H1 now l) as (new1 & more1 & Hev1 & Har1 & Hptr1).
  destruct (H2 (now + k) (F1 now l)) as (new2 & more2 & Hev2 & Har2 & Hptr2).
  exists (new1 ++ new2), (more1 ++ more2).
  rewrite Hev2, Hev1, Har2, Har1, <- !app_assoc. repeat split.
  intros e p Hin Hp. apply in_app_or in Hin as [Hin|Hin].
  - specialize (Hptr1 e p Hin Hp). rewrite !length_app in *. lia.
  - specialize (Hptr2 e p Hin Hp). rewrite Har1 in Hptr2.
    rewrite !length_app in *. lia.
Qed.

Lemma pointers_valid_extending (F : TimeStamp -> EventList -> EventList)
      (now : TimeStamp) (l : EventList) :
  extending F -> pointers_valid l -> pointers_valid (F now l).
Proof.
  intros HF Hl e p Hin Hp.
  destruct (HF now l) as (new & more & Hev & Har & Hptr).
  rewrite Hev in Hin. rewrite Har. apply in_app_or in Hin as [Hin|Hin].
  - specialize (Hl e p Hin Hp). rewrite length_app. lia.
  - apply (Hptr e p Hin Hp).
Qed.

(** ** Which calls compile *)

Lemma pack_pairs_pack_of (pairs : list (TraceKey * DataValue)) :
  pack_pairs (pack_of pairs) = pairs.
Proof.
  induction pairs as [|[key value] pairs IH]; [reflexivity|].
  simpl. fold (pack_of pairs). rewrite IH. reflexivity.
Qed.

Lemma length_pack_of (pairs : list (TraceKey * DataValue)) :
  length (pack_of pairs) = (2 * length pairs)%nat.
Proof.
  induction pairs as [|kv pairs IH]; [reflexivity|].
  simpl. fold (pack_of pairs). rewrite IH. lia.
Qed.

Lemma static_assert_pairs_pack_of {A} (pairs : list (TraceKey * DataValue))
      (body : Compiled A) :
  static_assert_pairs (pack_of pairs) body = body.
Proof.
  unfold static_assert_pairs. rewrite length_pack_of.
  rewrite Nat.mul_comm, Nat.Div0.mod_mul. reflexivity.
Qed.

Lemma StoreData_accepted_iff (sizeof_uintptr_t : nat) (value : DataValue) :
  (exists store, _StoreData sizeof_uintptr_t value = Accepted store)
  <-> storable value.
Proof.
  destruct value as [[|] repr|buf|str|arr]; simpl.
  - split; [intros [store H]; discriminate H | intros []].
  - destruct (length repr <=? sizeof_uintptr_t)%nat; split; eauto.
  - split; eauto.
  - split; eauto.
  - split; eauto.
Qed.

Lemma StoreDataRec_accepted_iff (sizeof_uintptr_t : nat)
      (args : list PackArg) :
  (exists store, _StoreDataRec sizeof_uintptr_t args = Accepted store)
  <-> args = pack_of (pack_pairs args)
      /\ Forall (fun kv => storable (snd kv)) (pack_pairs args).
Proof.
  induction args as [|a|a b rest IH] using pairs_ind.
  - split; [intros _; split; [reflexivity | constructor] | eauto].
  - split.
    + intros [store H]. destruct a; discriminate H.
    + intros [H _]. destruct a; discriminate H.
  - destruct a as [key|v].
    2:{ split; [intros [store H]; discriminate H
               | intros [H _]; discriminate H]. }
    destruct b as [key'|value].
    { split; [intros [store H]; discriminate H
             | intros [H _]; discriminate H]. }
    simpl pack_pairs. simpl pack_of. fold (pack_of (pack_pairs rest)).
    simpl _StoreDataRec. split.
    + intros [store H].
      destruct (_StoreData sizeof_uintptr_t value) as [st|] eqn:Hst;
        destruct (_StoreDataRec sizeof_uintptr_t rest) as [more|];
        try discriminate H.
      destruct (proj1 IH (ex_intro _ more eq_refl)) as [Hrest Hall].
      split; [congruence|]. constructor; [|exact Hall].
      apply (StoreData_accepted_iff sizeof_uintptr_t). eauto.
    + intros [Heq Hall]. inversion Hall as [|kv kvs Hv Hvs]; subst.
      simpl in Hv.
      apply (StoreData_accepted_iff sizeof_uintptr_t) in Hv as [st Hst].
      destruct (proj2 IH) as [more Hmore].
      { split; [congruence | exact Hvs]. }
      rewrite Hst, Hmore. eauto.
Qed.

(** ** What the caller sees of a batch *)

Lemma leaves_run (self : TraceThreadId)
      (F : TimeStamp -> EventList -> EventList) (k : Z) (g : nat)
      (m : M unit) (s : State) :
  leaves self F k g m ->
  invariant s -> _isEnabled (collector s) = 1 ->
  exists s',
    m s = Some (tt, s')
    /\ invariant s'
    /\ thread_list self s' = F (clock s) (thread_list self s)
    /\ clock s' = clock s + k
    /\ gate_loads (trace s') = (gate_loads (trace s) + g)%nat.
Proof.
  intros Hm Hinv Hon.
  destruct (Hm s Hinv Hon) as (s' & Hrun & Hc & Hh & Hk & _ & Hg).
  destruct (after_leaves self s s' _ Hinv Hc Hh) as (Hinv' & _ & Hlist & _).
  exists s'. auto.
Qed.

(** X1: with the gate on, [BeginScope] appends one [Begin] event and
    [Scope] one [Timespan] event that keeps the given start, at the back of
    the caller's list, stamped with the current time; the arena of the list
    stays as it is. *)
Theorem BeginScope_and_Scope_append_one_event
        (self : TraceThreadId) (key : TraceKey) (start : TimeStamp)
        (cat : TraceCategoryId) (s : State)
        (Hinv : invariant s) (Hon : _isEnabled (collector s) = 1) :
  (exists s',
      BeginScope self key cat s = Some (tt, s')
      /\ thread_events self s'
         = thread_events self s
           ++ [mkEvent Begin (StaticKey key) cat (clock s) PNone]
      /\ thread_arena self s' = thread_arena self s)
  /\ (exists s',
      Scope self key start cat s = Some (tt, s')
      /\ thread_events self s'
         = thread_events self s
           ++ [mkEvent Timespan (StaticKey key) cat (clock s) (PStart start)]
      /\ thread_arena self s' = thread_arena self s).
Proof.
  split.
  - destruct (leaves_run _ _ _ _ _ s (leaves_BeginScope self key cat) Hinv Hon)
      as (s' & Hrun & _ & Hlist & _).
    exists s'. unfold thread_events, thread_arena. rewrite Hlist. auto.
  - destruct (leaves_run _ _ _ _ _ s (leaves_Scope self key start cat) Hinv Hon)
      as (s' & Hrun & _ & Hlist & _).
    exists s'. unfold thread_events, thread_arena. rewrite Hlist. auto.
Qed.

(** X2: with the gate on, [ScopeArgs] appends to the caller's list one
    [Data] event per pair of the pack, in the order of the pairs and with
    the given category; each event has the key of its pair and holds the
    value, or points to where the value is read back in the final list.
    The gate is loaded once, however many pairs there are. *)
Theorem ScopeArgs_appends_one_Data_event_per_pair
        (self : TraceThreadId) (sizeof_uintptr_t : nat)
        (cat : TraceCategoryId) (args : list PackArg) (m : M unit) (s : State)
        (Hacc : ScopeArgs self sizeof_uintptr_t cat args = Accepted m)
        (Hinv : invariant s) (Hon : _isEnabled (collector s) = 1) :
  exists s' new,
    m s = Some (tt, s')
    /\ args = pack_of (pack_pairs args)
    /\ thread_events self s' = thread_events self s ++ new
    /\ Forall2 (holds_value sizeof_uintptr_t (thread_list self s'))
               (pack_pairs args) new
    /\ Forall (fun e => ev_category e = cat) new
    /\ gate_loads (trace s') = (gate_loads (trace s) + 1)%nat.
Proof.
  destruct (leaves_run _ _ _ _ _ s (leaves_ScopeArgs _ _ _ _ _ Hacc) Hinv Hon)
    as (s' & Hrun & _ & Hlist & _ & Hg).
  destruct (pack_stored_spec sizeof_uintptr_t cat args (clock s)
                             (thread_list self s))
    as (new & more & Hev & _ & Hall & Hcat & _).
  exists s', new. split; [exact Hrun|]. split.
  { apply static_assert_pairs_Accepted in Hacc.
    destruct (_StoreDataRec sizeof_uintptr_t args) as [store|] eqn:Hst;
      [|discriminate Hacc].
    apply (StoreDataRec_accepted_iff sizeof_uintptr_t). eauto. }
  unfold thread_events. rewrite Hlist. auto.
Qed.

Lemma bind_ret_tt (m : M unit) (s : State) : (m ;; ret tt) s = m s.
Proof. unfold bind, ret. destruct (m s) as [[[] s']|]; reflexivity. Qed.

Lemma leaves_then_ret (self : TraceThreadId)
      (F : TimeStamp -> EventList -> EventList) (k : Z) (g : nat)
      (m : M unit) :
  leaves self F k g m -> leaves self F k g (m ;; ret tt).
Proof. intros Hm s Hinv Hon. rewrite bind_ret_tt. apply Hm; assumption. Qed.

Lemma StoreData_each_accepted (self : TraceThreadId) (sizeof_uintptr_t : nat)
      (cat : TraceCategoryId) (args : list PackArg) :
  forall store,
    _StoreDataRec sizeof_uintptr_t args = Accepted store ->
    exists each, StoreData_each self sizeof_uintptr_t cat args = Accepted each.
Proof.
  induction args as [|a|a b rest IH] using pairs_ind; intros store Hacc.
  - simpl. eauto.
  - destruct a; discriminate Hacc.
  - simpl in Hacc. destruct a as [key|]; [|discriminate Hacc].
    destruct b as [|value]; [discriminate Hacc|].
    destruct (_StoreData sizeof_uintptr_t value) as [st|] eqn:Hst;
      destruct (_StoreDataRec sizeof_uintptr_t rest) as [more|];
      try discriminate Hacc.
    destruct (IH more eq_refl) as [each Heach].
    simpl. unfold StoreData. rewrite Hst, Heach. eauto.
Qed.

Lemma leaves_StoreData_each (self : TraceThreadId) (sizeof_uintptr_t : nat)
      (cat : TraceCategoryId) (args : list PackArg) :
  forall each,
    StoreData_each self sizeof_uintptr_t cat args = Accepted each ->
    args <> [] ->
    leaves self
      (fun now l => pack_stored sizeof_uintptr_t cat now args l)
      (Z.of_nat (length (pack_pairs args)))
      (length (pack_pairs args)) each.
Proof.
  induction args as [|a|a b rest IH] using pairs_ind; intros each Hacc Hne.
  - destruct Hne. reflexivity.
  - destruct a; discriminate Hacc.
  - simpl in Hacc. destruct a as [key|]; [|discriminate Hacc].
    destruct b as [|value]; [discriminate Hacc|].
    destruct (StoreData self sizeof_uintptr_t key value cat) as [one|] eqn:Hone;
      destruct (StoreData_each self sizeof_uintptr_t cat rest) as [more|]
        eqn:Hmore; try discriminate Hacc.
    injection Hacc as <-.
    pose proof (leaves_StoreData _ _ _ _ _ _ Hone) as Hleaves.
    destruct rest as [|c rest'].
    + injection Hmore as <-. apply leaves_then_ret. exact Hleaves.
    + eapply leaves_ext;
        [| | | apply (leaves_seq self _ _ _ _ _ _ _ _ Hleaves
                        (IH more eq_refl ltac:(discriminate)))].
      * intros now l. reflexivity.
      * simpl pack_pairs. simpl length. lia.
      * simpl pack_pairs. simpl length. lia.
Qed.

(** X3: a batch stored by [ScopeArgs] leaves the same collector, lists and
    clock as one call of [StoreData] for each of its pairs, in order; the
    calls of [StoreData] load the gate once each, [ScopeArgs] once in
    all. *)
Theorem ScopeArgs_same_as_StoreData_for_each_pair
        (self : TraceThreadId) (sizeof_uintptr_t : nat)
        (cat : TraceCategoryId) (args : list PackArg) (batch : M unit)
        (Hacc : ScopeArgs self sizeof_uintptr_t cat args = Accepted batch)
        (Hne : args <> []) :
  exists each,
    StoreData_each self sizeof_uintptr_t cat args = Accepted each
    /\ forall s,
        invariant s -> _isEnabled (collector s) = 1 ->
        exists s1 s2,
          batch s = Some (tt, s1)
          /\ each s = Some (tt, s2)
          /\ same_state s1 s2
          /\ gate_loads (trace s1) = (gate_loads (trace s) + 1)%nat
          /\ gate_loads (trace s2)
             = (gate_loads (trace s) + length (pack_pairs args))%nat.
Proof.
  pose proof (leaves_ScopeArgs _ _ _ _ _ Hacc) as Hbatch.
  apply static_assert_pairs_Accepted in Hacc.
  destruct (_StoreDataRec sizeof_uintptr_t args) as [store|] eqn:Hst;
    [|discriminate Hacc].
  destruct (StoreData_each_accepted self sizeof_uintptr_t cat args store Hst)
    as [each Heach].
  exists each. split; [exact Heach|]. intros s Hinv Hon.
  apply (leaves_same_state self _ _ _ _ _ _ s Hbatch
           (leaves_StoreData_each _ _ _ _ _ Heach Hne) Hinv Hon).
Qed.

(** X4: [BeginScope] with data arguments leaves the same collector, lists
    and clock as [BeginScope] followed by [ScopeArgs] with the same category
    and pack: a [Begin] event, then the [Data] events; it loads the gate
    once where the two calls load it twice. *)
Theorem BeginScope_with_data_same_as_BeginScope_then_ScopeArgs
        (self : TraceThreadId) (sizeof_uintptr_t : nat) (key : TraceKey)
        (cat : TraceCategoryId) (args : list PackArg) (m : M unit)
        (Hacc : BeginScope_args self sizeof_uintptr_t key cat args
                = Accepted m) :
  exists batch,
    ScopeArgs self sizeof_uintptr_t cat args = Accepted batch
    /\ forall s,
        invariant s -> _isEnabled (collector s) = 1 ->
        exists s1 s2,
          m s = Some (tt, s1)
          /\ (BeginScope self key cat ;; batch) s = Some (tt, s2)
          /\ same_state s1 s2
          /\ (exists new,
                 thread_events self s1
                 = thread_events self s
                   ++ mkEvent Begin (StaticKey key) cat (clock s) PNone :: new
                 /\ Forall2 (holds_value sizeof_uintptr_t
                               (thread_list self s1))
                            (pack_pairs args) new)
          /\ gate_loads (trace s1) = (gate_loads (trace s) + 1)%nat
          /\ gate_loads (trace s2) = (gate_loads (trace s) + 2)%nat.
Proof.
  pose proof (leaves_BeginScope_args _ _ _ _ _ _ Hacc) as Hm.
  assert (exists batch,
             ScopeArgs self sizeof_uintptr_t cat args = Accepted batch)
    as [batch Hbatch].
  { unfold BeginScope_args, ScopeArgs, static_assert_pairs in *.
    destruct (length args mod 2 =? 0)%nat; [|discriminate Hacc].
    destruct (_StoreDataRec sizeof_uintptr_t args); [eauto|discriminate Hacc]. }
  exists batch. split; [exact Hbatch|]. intros s Hinv Hon.
  pose proof (leaves_seq self _ _ _ _ _ _ _ _ (leaves_BeginScope self key cat)
                (leaves_ScopeArgs _ _ _ _ _ Hbatch)) as Hseq.
  destruct (leaves_same_state self _ _ _ _ _ _ s Hm Hseq Hinv Hon)
    as (s1 & s2 & Hrun1 & Hrun2 & Hsame & Hg1 & Hg2).
  exists s1, s2. repeat split; try assumption; try apply Hsame.
  destruct (leaves_run _ _ _ _ _ s Hm Hinv Hon) as (s1' & Hrun1' & _ & Hlist & _).
  rewrite Hrun1 in Hrun1'. injection Hrun1' as <-.
  unfold thread_events. rewrite Hlist.
  destruct (pack_stored_spec sizeof_uintptr_t cat args (clock s + 1)
              (EventList_EmplaceBack
                 (mkEvent Begin (StaticKey key) cat (clock s) PNone)
                 (thread_list self s)))
    as (new & _ & Hev & _ & Hall & _).
  exists new. rewrite Hev. simpl. rewrite <- app_assoc.
  split; [reflexivity | exact Hall].
Qed.

(** ** What a record operation leaves alone *)

Lemma separate_with_slot (self : TraceThreadId) (s : State) :
  wf s -> separate s -> separate (with_slot self s).
Proof.
  intros Hwf Hsep. unfold with_slot.
  destruct (thread_slot self s); [exact Hsep|].
  intros i j di dj Hi Hj Heq.
  unfold registered, slots, set_slots in Hi, Hj. simpl in Hi, Hj.
  apply lookup_app_Some in Hi as [Hi|[Hleni Hi]];
    apply lookup_app_Some in Hj as [Hj|[Hlenj Hj]].
  - eapply Hsep; eassumption.
  - apply Hwf in Hi.
    destruct (j - length (_allPerThreadData (collector s)))%nat;
      [|discriminate Hj].
    injection Hj as <-. simpl in Heq. lia.
  - apply Hwf in Hj.
    destruct (i - length (_allPerThreadData (collector s)))%nat;
      [|discriminate Hi].
    injection Hi as <-. simpl in Heq. lia.
  - apply lookup_lt_Some in Hi, Hj. simpl in Hi, Hj. lia.
Qed.

Lemma isolated_of_appends_only (self : TraceThreadId) (m : M unit) :
  appends_only self m -> isolated self m.
Proof.
  intros (F & k & g & Hon & Hoff & HF) s Hinv Hsep.
  destruct (Z.eq_dec (_isEnabled (collector s)) 1) as [Hen|Hen].
  - destruct (Hon s Hinv Hen) as (s' & Hrun & Hc & Hh & _).
    destruct (after_leaves self s s' _ Hinv Hc Hh)
      as (Hinv' & Hfind & Hlist & _).
    assert (slots s' = slots (with_slot self s)) as Hslots
        by (unfold slots; rewrite Hc; reflexivity).
    pose proof (separate_with_slot self s (proj1 Hinv) Hsep) as Hsep0.
    exists s'. split; [exact Hrun|]. split; [exact Hinv'|]. repeat split.
    + intros i j di dj Hi Hj. rewrite Hslots in Hi, Hj. eapply Hsep0; eassumption.
    + intros t Hne. rewrite <- (thread_list_with_slot self t s).
      unfold thread_list, thread_slot. rewrite Hslots.
      destruct (list_find (fun d => _threadIndex d = t)
                          (slots (with_slot self s)))
        as [[i dt]|] eqn:Ht; [|reflexivity].
      rewrite Hh. rewrite list_lookup_insert_ne; [reflexivity|].
      intros Heq. apply list_find_Some in Ht as (Hi & Hidt & _).
      destruct (my_slot_lookup self s) as [Hmy Hidself].
      assert (fst (my_slot self s) = i) as Hidx
          by (eapply Hsep0; eassumption).
      rewrite Hidx, Hi in Hmy. injection Hmy as Hmy.
      rewrite <- Hmy in Hidself. congruence.
    + unfold thread_events, thread_arena. rewrite Hlist.
      destruct (HF (clock s) (thread_list self s))
        as (new & more & Hev & Har & _).
      eauto.
    + intros [x Hsome]. rewrite Hslots. unfold with_slot. rewrite Hsome.
      reflexivity.
  - exists (log (LoadEnabled mo_acquire (_isEnabled (collector s))) s).
    split; [apply Hoff, Hen|]. split; [exact Hinv|]. repeat split.
    + exact Hsep.
    + exists [], []. unfold thread_events, thread_arena.
      rewrite !app_nil_r. split; reflexivity.
Qed.

Lemma pointers_valid_new : pointers_valid EventList_new.
Proof. intros e p []. Qed.

Lemma pointers_valid_thread_list (t : TraceThreadId) (s : State) :
  heap_pointers_valid s -> pointers_valid (thread_list t s).
Proof.
  intros Hs. unfold thread_list.
  destruct (thread_slot t s) as [[td d]|]; [|apply pointers_valid_new].
  destruct (heap s !! _events d) as [l|] eqn:Hl; [|apply pointers_valid_new].
  eapply Hs, Hl.
Qed.

Lemma heap_pointers_valid_with_slot (self : TraceThreadId) (s : State) :
  heap_pointers_valid s -> heap_pointers_valid (with_slot self s).
Proof.
  intros Hs. unfold with_slot. destruct (thread_slot self s); [exact Hs|].
  intros a l Hl. simpl in Hl. apply lookup_app_Some in Hl as [Hl|[_ Hl]].
  - eapply Hs, Hl.
  - destruct (a - length (heap s))%nat; [|discriminate Hl].
    injection Hl as <-. apply pointers_valid_new.
Qed.

Lemma keeps_pointers_of_appends_only (self : TraceThreadId) (m : M unit) :
  appends_only self m -> keeps_pointers_valid m.
Proof.
  intros (F & k & g & Hon & Hoff & HF) s Hinv Hvalid.
  destruct (Z.eq_dec (_isEnabled (collector s)) 1) as [Hen|Hen].
  - destruct (Hon s Hinv Hen) as (s' & Hrun & Hc & Hh & _).
    destruct (after_leaves self s s' _ Hinv Hc Hh) as (Hinv' & _).
    exists s'. split; [exact Hrun|]. split; [exact Hinv'|].
    intros a l Hl. rewrite Hh in Hl.
    apply list_lookup_insert_Some in Hl as [(_ & <- & _)|[_ Hl]].
    + apply pointers_valid_extending; [exact HF|].
      apply pointers_valid_thread_list, Hvalid.
    + eapply heap_pointers_valid_with_slot; eassumption.
  - exists (log (LoadEnabled mo_acquire (_isEnabled (collector s))) s).
    split; [apply Hoff, Hen|]. split; [exact Hinv | exact Hvalid].
Qed.

Lemma appends_only_BeginScope (self : TraceThreadId) (key : TraceKey)
      (cat : TraceCategoryId) :
  appends_only self (BeginScope self key cat).
Proof.
  eexists _, _, _. split; [apply leaves_BeginScope|].
  split; [apply skipped_gated_unless|].
  apply (extending_emplace
           (fun now => mkEvent Begin (StaticKey key) cat now PNone)).
  intros now p Hp. discriminate Hp.
Qed.

Lemma appends_only_Scope (self : TraceThreadId) (key : TraceKey)
      (start : TimeStamp) (cat : TraceCategoryId) :
  appends_only self (Scope self key start cat).
Proof.
  eexists _, _, _. split; [apply leaves_Scope|].
  split; [apply skipped_gated_unless|].
  apply (extending_emplace
           (fun now => mkEvent Timespan (StaticKey key) cat now (PStart start))).
  intros now p Hp. discriminate Hp.
Qed.

Lemma appends_only_RecordCounterDelta (self : TraceThreadId) (key : TraceKey)
      (x : double) (cat : TraceCategoryId) :
  appends_only self (RecordCounterDelta self key x cat).
Proof.
  eexists _, _, _. split; [apply leaves_RecordCounterDelta|].
  split; [apply skipped_gated_if|].
  apply (extending_emplace
           (fun now => mkEvent CounterDelta (StaticKey key) cat now (PDouble x))).
  intros now p Hp. discriminate Hp.
Qed.

Lemma appends_only_RecordCounterValue (self : TraceThreadId) (key : TraceKey)
      (x : double) (cat : TraceCategoryId) :
  appends_only self (RecordCounterValue self key x cat).
Proof.
  eexists _, _, _. split; [apply leaves_RecordCounterValue|].
  split; [apply skipped_gated_if|].
  apply (extending_emplace
           (fun now => mkEvent CounterValue (StaticKey key) cat now (PDouble x))).
  intros now p Hp. discriminate Hp.
Qed.

Lemma appends_only_StoreData (self : TraceThreadId) (sizeof_uintptr_t : nat)
      (key : TraceKey) (value : DataValue) (cat : TraceCategoryId)
      (m : M unit) :
  StoreData self sizeof_uintptr_t key value cat = Accepted m ->
  appends_only self m.
Proof.
  intros Hacc. eexists _, _, _.
  split; [apply (leaves_StoreData _ _ _ _ _ _ Hacc)|].
  split; [|apply extending_data_stored].
  unfold StoreData in Hacc.
  destruct (_StoreData sizeof_uintptr_t value); [|discriminate Hacc].
  injection Hacc as <-. apply skipped_gated_if.
Qed.

Lemma appends_only_ScopeArgs (self : TraceThreadId) (sizeof_uintptr_t : nat)
      (cat : TraceCategoryId) (args : list PackArg) (m : M unit) :
  ScopeArgs self sizeof_uintptr_t cat args = Accepted m ->
  appends_only self m.
Proof.
  intros Hacc. eexists _, _, _.
  split; [apply (leaves_ScopeArgs _ _ _ _ _ Hacc)|].
  split; [|apply extending_pack_stored].
  apply static_assert_pairs_Accepted in Hacc.
  destruct (_StoreDataRec sizeof_uintptr_t args); [|discriminate Hacc].
  injection Hacc as <-. apply skipped_gated_unless.
Qed.

Lemma appends_only_BeginScope_args (self : TraceThreadId)
      (sizeof_uintptr_t : nat) (key : TraceKey) (cat : TraceCategoryId)
      (args : list PackArg) (m : M unit) :
  BeginScope_args self sizeof_uintptr_t key cat args = Accepted m ->
  appends_only self m.
Proof.
  intros Hacc. eexists _, _, _.
  split; [apply (leaves_BeginScope_args _ _ _ _ _ _ Hacc)|]. split.
  - apply static_assert_pairs_Accepted in Hacc.
    destruct (_StoreDataRec sizeof_uintptr_t args); [|discriminate Hacc].
    injection Hacc as <-. apply skipped_gated_unless.
  - apply (extending_seq
             (fun now l =>
                EventList_EmplaceBack
                  (mkEvent Begin (StaticKey key) cat now PNone) l)
             (fun now l => pack_stored sizeof_uintptr_t cat now args l) 1).
    + apply (extending_emplace
               (fun now => mkEvent Begin (StaticKey key) cat now PNone)).
      intros now p Hp. discriminate Hp.
    + apply extending_pack_stored.
Qed.

(** X5: whatever the gate, a record operation of the header run by a thread
    returns, leaves the pending list of every other thread as it was, only
    appends to the events and the arena of the caller's list, and, when the
    caller has a slot, changes no slot: it never swaps a list pointer and
    never leaves the writing flag set.  No two slots share a list
    afterwards, as before. *)
Theorem record_operations_touch_only_the_callers_list
        (self : TraceThreadId) (sizeof_uintptr_t : nat) :
  (forall key cat, isolated self (BeginScope self key cat))
  /\ (forall key start cat, isolated self (Scope self key start cat))
  /\ (forall key x cat, isolated self (RecordCounterDelta self key x cat))
  /\ (forall key x cat, isolated self (RecordCounterValue self key x cat))
  /\ (forall key value cat m,
         StoreData self sizeof_uintptr_t key value cat = Accepted m ->
         isolated self m)
  /\ (forall cat args m,
         ScopeArgs self sizeof_uintptr_t cat args = Accepted m ->
         isolated self m)
  /\ (forall key cat args m,
         BeginScope_args self sizeof_uintptr_t key cat args = Accepted m ->
         isolated self m).
Proof.
  repeat apply conj; intros; apply isolated_of_appends_only.
  - apply appends_only_BeginScope.
  - apply appends_only_Scope.
  - apply appends_only_RecordCounterDelta.
  - apply appends_only_RecordCounterValue.
  - eapply appends_only_StoreData; eassumption.
  - eapply appends_only_ScopeArgs; eassumption.
  - eapply appends_only_BeginScope_args; eassumption.
Qed.

(** X6: whatever the gate, a record operation of the header keeps every
    arena pointer held by an event inside the arena of the event's list:
    [StoreLargeData] stores the block before it appends the event with the
    pointer, and nothing removes a block. *)
Theorem record_operations_keep_arena_pointers_valid
        (self : TraceThreadId) (sizeof_uintptr_t : nat) :
  (forall key cat, keeps_pointers_valid (BeginScope self key cat))
  /\ (forall key start cat, keeps_pointers_valid (Scope self key start cat))
  /\ (forall key x cat,
         keeps_pointers_valid (RecordCounterDelta self key x cat))
  /\ (forall key x cat,
         keeps_pointers_valid (RecordCounterValue self key x cat))
  /\ (forall key value cat m,
         StoreData self sizeof_uintptr_t key value cat = Accepted m ->
         keeps_pointers_valid m)
  /\ (forall cat args m,
         ScopeArgs self sizeof_uintptr_t cat args = Accepted m ->
         keeps_pointers_valid m)
  /\ (forall key cat args m,
         BeginScope_args self sizeof_uintptr_t key cat args = Accepted m ->
         keeps_pointers_valid m).
Proof.
  repeat apply conj; intros; apply (keeps_pointers_of_appends_only self).
  - apply appends_only_BeginScope.
  - apply appends_only_Scope.
  - apply appends_only_RecordCounterDelta.
  - apply appends_only_RecordCounterValue.
  - eapply appends_only_StoreData; eassumption.
  - eapply appends_only_ScopeArgs; eassumption.
  - eapply appends_only_BeginScope_args; eassumption.
Qed.

(** ** A batch is a sequence of complete appends *)

Lemma slot_appends_of_appended (td : nat) (m : M unit) :
  (forall s d l,
      slots s !! td = Some d -> heap s !! _events d = Some l ->
      exists l' k body,
        m s = Some (tt, appended td d l' k body s)
        /\ append_body (_events d) body = true) ->
  slot_appends td 1 m.
Proof.
  intros Hm s d l Hd Hw Hl.
  destruct (Hm s d l Hd Hl) as (l' & k & body & Hrun & Hbody).
  eexists _, [_]. split; [exact Hrun|]. simpl. rewrite app_nil_r.
  split; [reflexivity|]. split; [reflexivity|].
  constructor; [|constructor]. exists body. split; [reflexivity | exact Hbody].
Qed.

Lemma slot_appends_ret (td : nat) : slot_appends td 0 (ret tt).
Proof.
  intros s d l Hd Hw Hl. exists s, []. simpl. rewrite app_nil_r.
  repeat split. constructor.
Qed.

Lemma slot_appends_bind (td : nat)
      (F : TimeStamp -> EventList -> EventList) (k : Z) (n1 n2 : nat)
      (m1 m2 : M unit) :
  slot_leaves td F k m1 ->
  slot_appends td n1 m1 -> slot_appends td n2 m2 ->
  slot_appends td (n1 + n2) (m1 ;; m2).
Proof.
  intros Hstate H1 H2 s d l Hd Hw Hl.
  destruct (Hstate s d l Hd Hw Hl) as (s1 & Hrun1 & Hc1 & Hh1 & _).
  destruct (H1 s d l Hd Hw Hl) as (s1' & chunks1 & Hrun1' & Htr1 & Hlen1 & Hall1).
  rewrite Hrun1 in Hrun1'. injection Hrun1' as <-.
  destruct (H2 s1 d (F (clock s) l))
    as (s2 & chunks2 & Hrun2 & Htr2 & Hlen2 & Hall2).
  { unfold slots. rewrite Hc1. exact Hd. }
  { exact Hw. }
  { rewrite Hh1. apply list_lookup_insert_eq. eapply lookup_lt_Some, Hl. }
  exists s2, (chunks1 ++ chunks2). unfold bind. rewrite Hrun1.
  split; [exact Hrun2|]. rewrite Htr2, Htr1, concat_app, <- app_assoc.
  split; [reflexivity|]. split; [rewrite length_app; lia|].
  apply Forall_app. split; assumption.
Qed.

Lemma slot_appends_BeginScope (td : nat) (key : TraceKey)
      (cat : TraceCategoryId) :
  slot_appends td 1 (PerThreadData.BeginScope td key cat).
Proof.
  apply slot_appends_of_appended. intros s d l Hd Hl.
  rewrite (BeginScope_run _ _ _ _ _ _ Hd Hl). eexists _, _, _.
  split; [reflexivity|]. simpl. apply Nat.eqb_refl.
Qed.

Lemma slot_appends_StoreData (sizeof_uintptr_t : nat) (value : DataValue)
      (store : nat -> TraceKey -> TraceCategoryId -> M unit) :
  _StoreData sizeof_uintptr_t value = Accepted store ->
  forall td key cat, slot_appends td 1 (store td key cat).
Proof.
  intros Hacc td key cat. apply slot_appends_of_appended. intros s d l Hd Hl.
  destruct value as [[|] repr|buf|str|arr]; simpl in Hacc;
    try discriminate Hacc.
  - destruct (length repr <=? sizeof_uintptr_t)%nat;
      injection Hacc as <-.
    + rewrite (StoreData_run _ _ _ _ _ _ _ Hd Hl). eexists _, _, _.
      split; [reflexivity|]. simpl. apply Nat.eqb_refl.
    + rewrite (StoreLargeData_run _ _ _ _ _ _ _ Hd Hl). eexists _, _, _.
      split; [reflexivity|]. simpl. rewrite Nat.eqb_refl. reflexivity.
  - injection Hacc as <-.
    rewrite (StoreLargeData_run _ _ _ _ _ _ _ Hd Hl). eexists _, _, _.
    split; [reflexivity|]. simpl. rewrite Nat.eqb_refl. reflexivity.
  - injection Hacc as <-.
    rewrite (StoreLargeData_run _ _ _ _ _ _ _ Hd Hl). eexists _, _, _.
    split; [reflexivity|]. simpl. rewrite Nat.eqb_refl. reflexivity.
  - injection Hacc as <-.
    rewrite (StoreLargeData_run _ _ _ _ _ _ _ Hd Hl). eexists _, _, _.
    split; [reflexivity|]. simpl. rewrite Nat.eqb_refl. reflexivity.
Qed.

Lemma slot_appends_StoreDataRec (sizeof_uintptr_t : nat)
      (args : list PackArg) :
  forall store,
    _StoreDataRec sizeof_uintptr_t args = Accepted store ->
    forall td cat,
      slot_appends td (length (pack_pairs args)) (store td cat).
Proof.
  induction args as [|a|a b rest IH] using pairs_ind; intros store Hacc td cat.
  - injection Hacc as <-. apply slot_appends_ret.
  - destruct a; discriminate Hacc.
  - simpl in Hacc. destruct a as [key|]; [|discriminate Hacc].
    destruct b as [|value]; [discriminate Hacc|].
    destruct (_StoreData sizeof_uintptr_t value) as [st|] eqn:Hst;
      destruct (_StoreDataRec sizeof_uintptr_t rest) as [more|];
      try discriminate Hacc.
    injection Hacc as <-.
    apply (slot_appends_bind td _ _ 1 _ _ _
             (slot_leaves_StoreData _ _ _ Hst td key cat)
             (slot_appends_StoreData _ _ _ Hst td key cat)
             (IH more eq_refl td cat)).
Qed.

Lemma logs_appends_entered (self : TraceThreadId) (n : nat)
      (f : nat -> M unit) (s : State) :
  (forall td, slot_appends td n (f td)) ->
  invariant s -> _isEnabled (collector s) = 1 ->
  exists s' chunks,
    (threadData <- _GetThreadData self ;; f threadData)
      (log (LoadEnabled mo_acquire (_isEnabled (collector s))) s)
    = Some (tt, s')
    /\ trace s' = trace s ++ LoadEnabled mo_acquire 1 :: concat chunks
    /\ length chunks = n
    /\ Forall (is_append_bracket (fst (my_slot self s))
                                 (_events (snd (my_slot self s)))) chunks.
Proof.
  intros Hf Hinv Hon.
  set (s1 := log (LoadEnabled mo_acquire (_isEnabled (collector s))) s).
  assert (invariant s1) as Hinv1 by exact Hinv.
  destruct (my_slot_list self s1 (proj1 Hinv1)) as (l & Hl & _).
  destruct (my_slot_lookup self s1) as [Hd _].
  pose proof (proj2 (invariant_with_slot self s1 Hinv1) _ _ Hd) as Hw.
  destruct (Hf _ _ _ _ Hd Hw Hl) as (s' & chunks & Hrun & Htr & Hlen & Hall).
  exists s', chunks. unfold bind at 1. rewrite GetThreadData_run.
  split; [exact Hrun|]. split; [|split; [exact Hlen | exact Hall]].
  rewrite Htr, with_slot_trace. unfold s1. simpl. rewrite Hon, <- app_assoc.
  reflexivity.
Qed.

(** X8: with the gate on, [ScopeArgs] logs one load of the gate and then one
    complete append per pair on the caller's slot: flag set (release), list
    loaded (acquire), list mutated, flag cleared (release).  [BeginScope]
    with data arguments logs one more, for the [Begin] event.  The flag is
    never held from one event of a batch to the next. *)
Theorem batch_is_a_sequence_of_complete_appends
        (self : TraceThreadId) (sizeof_uintptr_t : nat) (key : TraceKey)
        (cat : TraceCategoryId) (args : list PackArg) (s : State)
        (Hinv : invariant s) (Hon : _isEnabled (collector s) = 1) :
  (forall m,
      ScopeArgs self sizeof_uintptr_t cat args = Accepted m ->
      logs_appends self (length (pack_pairs args)) m s)
  /\ (forall m,
      BeginScope_args self sizeof_uintptr_t key cat args = Accepted m ->
      logs_appends self (S (length (pack_pairs args))) m s).
Proof.
  split; intros m Hacc; apply static_assert_pairs_Accepted in Hacc;
    destruct (_StoreDataRec sizeof_uintptr_t args) as [store|] eqn:Hst;
    try discriminate Hacc; injection Hacc as <-; unfold logs_appends;
    unfold bind at 1; rewrite IsEnabled_run, (proj2 (Z.eqb_eq _ 1) Hon).
  - apply (logs_appends_entered self _ (fun td => store td cat));
      [|assumption..].
    intros td. apply (slot_appends_StoreDataRec _ _ _ Hst).
  - apply (logs_appends_entered self _
             (fun td => PerThreadData.BeginScope td key cat ;; store td cat));
      [|assumption..].
    intros td.
    apply (slot_appends_bind td _ _ 1 _ _ _
             (slot_leaves_BeginScope td key cat)
             (slot_appends_BeginScope td key cat)
             (slot_appends_StoreDataRec _ _ _ Hst td cat)).
Qed.

(** ** Instances of the batch properties *)

Lemma invariant_two_thread_state : invariant two_thread_state.
Proof.
  split; intros td d Hd; destruct td as [|[|[|td]]]; try discriminate Hd;
    injection Hd as <-; simpl; try reflexivity; lia.
Qed.

Lemma separate_two_thread_state : separate two_thread_state.
Proof.
  intros i j di dj Hi Hj Heq.
  destruct i as [|[|[|i]]]; try discriminate Hi;
    destruct j as [|[|[|j]]]; try discriminate Hj;
    injection Hi as <-; injection Hj as <-; simpl in Heq;
    try reflexivity; discriminate Heq.
Qed.

Lemma heap_pointers_valid_initial (enabled : Z) :
  heap_pointers_valid (initial enabled).
Proof. intros a l Hl. destruct a; discriminate Hl. Qed.

Lemma BeginScope_and_Scope_append_one_event_witness :
  invariant (initial 1) /\ _isEnabled (collector (initial 1)) = 1
  /\ exists s',
      Scope 7%nat 5 40 0 (initial 1) = Some (tt, s')
      /\ thread_events 7%nat s'
         = [mkEvent Timespan (StaticKey 5) 0 0 (PStart 40)].
Proof.
  split; [exact (invariant_initial 1)|]. split; [reflexivity|].
  destruct (proj2 (BeginScope_and_Scope_append_one_event
                     7%nat 5 40 0 (initial 1) (invariant_initial 1) eq_refl))
    as (s' & Hrun & Hev & _).
  exists s'. split; [exact Hrun | exact Hev].
Defined.

Lemma ScopeArgs_appends_one_Data_event_per_pair_witness :
  invariant (initial 1) /\ _isEnabled (collector (initial 1)) = 1
  /\ exists m s' new,
      ScopeArgs 7%nat 8%nat 0 example_pack = Accepted m
      /\ m (initial 1) = Some (tt, s')
      /\ thread_events 7%nat s' = new
      /\ Forall2 (holds_value 8 (thread_list 7%nat s'))
                 [(1, Object false [x2a; x00; x00; x00]);
                  (2, StdString [x68; x69])] new.
Proof.
  split; [exact (invariant_initial 1)|]. split; [reflexivity|].
  destruct (ScopeArgs 7%nat 8%nat 0 example_pack) as [m|msg] eqn:Hacc;
    [|discriminate Hacc].
  destruct (ScopeArgs_appends_one_Data_event_per_pair
              7%nat 8%nat 0 example_pack m (initial 1) Hacc
              (invariant_initial 1) eq_refl)
    as (s' & new & Hrun & _ & Hev & Hall & _).
  exists m, s', new. split; [reflexivity|]. split; [exact Hrun|].
  split; [exact Hev | exact Hall].
Defined.

Lemma ScopeArgs_same_as_StoreData_for_each_pair_witness :
  example_pack <> []
  /\ exists batch each s1 s2,
      ScopeArgs 7%nat 8%nat 0 example_pack = Accepted batch
      /\ StoreData_each 7%nat 8%nat 0 example_pack = Accepted each
      /\ batch (initial 1) = Some (tt, s1)
      /\ each (initial 1) = Some (tt, s2)
      /\ same_state s1 s2.
Proof.
  assert (example_pack <> []) as Hne by discriminate.
  split; [exact Hne|].
  destruct (ScopeArgs 7%nat 8%nat 0 example_pack) as [batch|msg] eqn:Hacc;
    [|discriminate Hacc].
  destruct (ScopeArgs_same_as_StoreData_for_each_pair
              7%nat 8%nat 0 example_pack batch Hacc Hne)
    as (each & Heach & Hsame).
  destruct (Hsame (initial 1) (invariant_initial 1) eq_refl)
    as (s1 & s2 & Hrun1 & Hrun2 & Heq & _).
  exists batch, each, s1, s2. auto.
Defined.

Lemma BeginScope_with_data_same_as_BeginScope_then_ScopeArgs_witness :
  exists m batch s1 s2,
    BeginScope_args 7%nat 8%nat 9 0 example_pack = Accepted m
    /\ ScopeArgs 7%nat 8%nat 0 example_pack = Accepted batch
    /\ m (initial 1) = Some (tt, s1)
    /\ (BeginScope 7%nat 9 0 ;; batch) (initial 1) = Some (tt, s2)
    /\ same_state s1 s2.
Proof.
  destruct (BeginScope_args 7%nat 8%nat 9 0 example_pack) as [m|msg] eqn:Hacc;
    [|discriminate Hacc].
  destruct (BeginScope_with_data_same_as_BeginScope_then_ScopeArgs
              7%nat 8%nat 9 0 example_pack m Hacc)
    as (batch & Hbatch & Hsame).
  destruct (Hsame (initial 1) (invariant_initial 1) eq_refl)
    as (s1 & s2 & Hrun1 & Hrun2 & Heq & _).
  exists m, batch, s1, s2. auto.
Defined.

Lemma record_operations_touch_only_the_callers_list_witness :
  invariant two_thread_state /\ separate two_thread_state
  /\ exists s',
      Scope 2%nat 9 0 0 two_thread_state = Some (tt, s')
      /\ thread_list 1%nat s' = thread_list 1%nat two_thread_state
      /\ slots s' = slots two_thread_state.
Proof.
  split; [exact invariant_two_thread_state|].
  split; [exact separate_two_thread_state|].
  destruct (proj1 (proj2 (record_operations_touch_only_the_callers_list
                            2%nat 8%nat))
              9 0 0 two_thread_state invariant_two_thread_state
              separate_two_thread_state)
    as (s' & Hrun & _ & _ & Hothers & _ & Hslots).
  exists s'. split; [exact Hrun|]. split.
  - apply Hothers. discriminate.
  - apply Hslots. eexists. reflexivity.
Defined.

Lemma record_operations_keep_arena_pointers_valid_witness :
  invariant (initial 1) /\ heap_pointers_valid (initial 1)
  /\ exists m s',
      StoreData 7%nat 8%nat 5 (StdString [x68; x69]) 0 = Accepted m
      /\ m (initial 1) = Some (tt, s')
      /\ heap_pointers_valid s'.
Proof.
  split; [exact (invariant_initial 1)|].
  split; [exact (heap_pointers_valid_initial 1)|].
  destruct (StoreData 7%nat 8%nat 5 (StdString [x68; x69]) 0) as [m|msg]
    eqn:Hacc; [|discriminate Hacc].
  destruct (proj1 (proj2 (proj2 (proj2 (proj2
              (record_operations_keep_arena_pointers_valid 7%nat 8%nat)))))
              5 (StdString [x68; x69]) 0 m Hacc (initial 1)
              (invariant_initial 1) (heap_pointers_valid_initial 1))
    as (s' & Hrun & _ & Hvalid).
  exists m, s'. auto.
Defined.

Lemma batch_is_a_sequence_of_complete_appends_witness :
  invariant (initial 1) /\ _isEnabled (collector (initial 1)) = 1
  /\ exists m,
      ScopeArgs 7%nat 8%nat 0 example_pack = Accepted m
      /\ logs_appends 7%nat 2 m (initial 1).
Proof.
  split; [exact (invariant_initial 1)|]. split; [reflexivity|].
  destruct (ScopeArgs 7%nat 8%nat 0 example_pack) as [m|msg] eqn:Hacc;
    [|discriminate Hacc].
  exists m. split; [reflexivity|].
  exact (proj1 (batch_is_a_sequence_of_complete_appends
                  7%nat 8%nat 9 0 example_pack (initial 1)
                  (invariant_initial 1) eq_refl) m Hacc).
Defined.

(** ** The append protocol *)









(** A string literal of four bytes is of a non-pointer type no larger than
    a pointer, and goes to the arena all the same, up to its first NUL. *)
Example char_array_goes_to_the_arena :
  exists m s',
    StoreData 7%nat 8%nat 5 (CharArray [x68; x69; x00; x00]) 0 = Accepted m
    /\ m (initial 1) = Some (tt, s')
    /\ thread_list 7%nat s'
       = mkList [mkEvent Data (StaticKey 5) 0 0 (PArena 0)] [[x68; x69; x00]].
Proof.
  eexists _, _. split; [reflexivity|]. split; vm_compute; reflexivity.
Qed.
